(** * Drizzle PostgreSQL adapter of lucia: a shallow embedding

    Source: packages/adapter-drizzle/src/drivers/postgresql.ts and
    packages/lucia/src/database.ts.

    The adapter is a thin layer over two external collaborators: the
    JavaScript object model (rows and table descriptors are mutable objects
    reached through references) and the drizzle query builder talking to a
    PostgreSQL store.  Both are modelled below in the modules [Js] and [Orm];
    the adapter itself, module [Adapter], is a line-by-line transcription of
    the TypeScript class written in a state-and-error monad. *)

From Stdlib Require Import ZArith.
From stdpp Require Import base decidable countable strings gmap list functions.

Local Open Scope Z_scope.
Local Open Scope string_scope.
Local Open Scope list_scope.

(** ** JavaScript values and objects *)

Module Js.

(** Run-time values found in a row.  TypeScript types are erased, so a row is
    an object from property names to arbitrary values. [VDate t] is a [Date]
    holding [t] milliseconds since the epoch. *)
Inductive value : Type :=
  | VUndefined
  | VNull
  | VBool (b : bool)
  | VNum (n : Z)
  | VStr (s : string)
  | VDate (t : Z).

#[global] Instance value_eq_dec : EqDecision value.
Proof. solve_decision. Defined.

(** A plain object used as a record of columns. *)
Abbreviation object := (gmap string value).

(** Property read [o.k]: a missing property reads as [undefined]. *)
Definition prop (o : object) (k : string) : value :=
  default VUndefined (o !! k).

(** Object spread [{...base, ...over}]: the properties written last win. *)
Definition spread (base over : object) : object := over ∪ base.

(** Rest destructuring [const {k1, .., kn, ...rest} = o]: [rest] holds every
    own property of [o] except the ones named. *)
Definition rest (names : list string) (o : object) : object :=
  foldr delete o names.

(** Truthiness of a string: only the empty string is falsy. *)
Definition truthy (s : string) : bool := negb (String.eqb s "").

End Js.
Export Js.

(** ** Domain records of lucia (database.ts) *)

(** [UserId] is declared in lucia's index.ts, which registers it per
    application and defaults it to [string]; identifiers are opaque and only
    compared for equality. *)
Definition UserId : Type := string.

(** A [Date] is its time value in milliseconds. *)
Definition Date : Type := Z.

(** [interface DatabaseUser].  The fields carry run-time values: what the
    adapter returns is whatever the row held. *)
Record DatabaseUser : Type := mkDatabaseUser {
  user_id : value;
  user_attributes : object
}.

(** [interface DatabaseSession]. *)
Record DatabaseSession : Type := mkDatabaseSession {
  userId : value;
  expiresAt : value;
  id : value;
  attributes : object
}.

(** A session that inhabits the TypeScript interface: [id : string],
    [userId : UserId], [expiresAt : Date]. *)
Definition typed_session (sid : string) (uid : UserId) (t : Date)
    (attrs : object) : DatabaseSession :=
  {| userId := VStr uid; expiresAt := VDate t; id := VStr sid;
     attributes := attrs |}.

(** The column names the adapter itself reads and writes. *)
Definition session_reserved : list string := ["id"; "userId"; "expiresAt"].
Definition user_reserved : list string := ["id"].

(** ** The world: table descriptors on the heap, relations in the store *)

(** A drizzle table object, as far as the adapter touches it: its name and the
    [Table.Symbol.Schema] slot ([None] when the table was declared without a
    schema). *)
Record Table : Type := mkTable {
  tbl_name : string;
  tbl_schema : option string
}.

#[global] Instance Table_eq_dec : EqDecision Table.
Proof. solve_decision. Defined.

(** References to table objects. *)
Definition ref : Type := nat.

(** A column as the store declares it: [NOT NULL] or not, and the value a row
    gets when the insert gives none (no [DEFAULT] means [NULL]). *)
Record Column : Type := mkColumn {
  col_name : string;
  col_notNull : bool;
  col_default : option value
}.

(** [tables] is the heap of table objects: the adapter, its caller and every
    query share them by reference.  The rest is the store.  [relations] holds
    the rows of the relation a descriptor denotes (schema and name), in
    storage order.  [columns] lists the columns that relation declares
    besides [id], which both table types of postgresql.ts declare as a
    not-null column.  [references] gives the relation whose [id] the
    [userId] of its rows must match, where the store declares that foreign
    key. *)
Record World : Type := mkWorld {
  tables : ref → Table;
  relations : Table → list object;
  columns : Table → list Column;
  references : Table → option Table
}.

Inductive StoreError : Type :=
  | NotNullViolation
  | UniqueViolation
  | ForeignKeyViolation.

Inductive Result (A : Type) : Type :=
  | Ok (a : A)
  | Err (e : StoreError).
Arguments Ok {A} a.
Arguments Err {A} e.

(** Computations that read and write the world and may be rejected by the
    store.  A rejection is a thrown exception: it skips the rest of the
    method, and keeps whatever was written to the world before it. *)
Definition M (A : Type) : Type := World → Result A * World.

Definition ret {A} (a : A) : M A := λ w, (Ok a, w).

Definition bind {A B} (m : M A) (k : A → M B) : M B :=
  λ w, match m w with
       | (Ok a, w') => k a w'
       | (Err e, w') => (Err e, w')
       end.

#[global] Instance M_ret : MRet M := @ret.
#[global] Instance M_bind : MBind M := λ A B k m, bind m k.

(** ** The query layer *)

Module Orm.

(** SQL equality: never true when either side is NULL. *)
Definition sql_eq (a b : value) : bool :=
  match a, b with
  | (VNull | VUndefined), _ => false
  | _, (VNull | VUndefined) => false
  | _, _ => bool_decide (a = b)
  end.

(** SQL [<=] on a timestamp column against a [Date]. *)
Definition sql_lte (a : value) (d : Date) : bool :=
  match a with
  | VDate t => (t <=? d)%Z
  | _ => false
  end.

(** [eq(table.col, v)] *)
Definition eq_ (col : string) (v : value) : object → bool :=
  λ r, sql_eq (prop r col) v.

(** [eq(left.lcol, right.rcol)] *)
Definition eq_cols (lcol rcol : string) : object → object → bool :=
  λ l r, sql_eq (prop l lcol) (prop r rcol).

(** [lte(table.col, d)] *)
Definition lte (col : string) (d : Date) : object → bool :=
  λ r, sql_lte (prop r col) d.

(** The relation a table object denotes right now. *)
Definition rows_of (t : ref) (w : World) : list object :=
  relations w (tables w t).

Definition set_rows (t : ref) (rs : list object) (w : World) : World :=
  {| tables := tables w;
     relations := <[tables w t := rs]> (relations w);
     columns := columns w;
     references := references w |}.

(** [db.select().from(t).where(p)] *)
Definition select_where (t : ref) (p : object → bool) : M (list object) :=
  λ w, (Ok (List.filter p (rows_of t w)), w).

(** One row of [db.select({user: u, session: s})]. *)
Record joined : Type := mkJoined {
  user : object;
  session : object
}.

(** [db.select({user: u, session: s}).from(s).innerJoin(u, on).where(p)] *)
Definition inner_join (srows urows : list object)
    (on : object → object → bool) : list joined :=
  flat_map (λ s, List.map (λ u, mkJoined u s) (List.filter (on s) urows))
    srows.

Definition select_join_where (s u : ref) (on : object → object → bool)
    (p : object → bool) : M (list joined) :=
  λ w, (Ok (List.filter (λ j, p (session j))
              (inner_join (rows_of s w) (rows_of u w) on)), w).

(** SQL [IS NULL]; a value the insert leaves [undefined] is not given. *)
Definition is_null (a : value) : bool :=
  match a with
  | VNull | VUndefined => true
  | _ => false
  end.

(** The primary key column of both table types. *)
Definition id_column : Column :=
  {| col_name := "id"; col_notNull := true; col_default := None |}.

Definition all_columns (d : Table) (w : World) : list Column :=
  id_column :: columns w d.

(** The value an insert stores in column [c]: the one given, else the
    column's default, else [NULL]. *)
Definition column_value (c : Column) (v : object) : value :=
  match v !! col_name c with
  | Some VUndefined | None => default VNull (col_default c)
  | Some x => x
  end.

(** The row an insert of [v] stores: one value per column of the table;
    properties of [v] that name no column are dropped. *)
Definition table_row (cols : list Column) (v : object) : object :=
  list_to_map ((λ c, (col_name c, column_value c v)) <$> cols).

(** The constraint of relation [d] that [row] violates, if any: a [NULL] in
    a not-null column, an [id] already present (primary key), a [userId]
    that is the [id] of no row of the referenced relation (foreign key). *)
Definition violation (d : Table) (row : object) (w : World)
    : option StoreError :=
  if existsb (λ c, col_notNull c && is_null (prop row (col_name c)))
       (all_columns d w)
  then Some NotNullViolation
  else if existsb (eq_ "id" (prop row "id")) (relations w d)
  then Some UniqueViolation
  else match references w d with
       | Some u =>
           if is_null (prop row "userId") then None
           else if existsb (λ r, sql_eq (prop row "userId") (prop r "id"))
                     (relations w u)
           then None
           else Some ForeignKeyViolation
       | None => None
       end.

(** [db.insert(t).values(v)] *)
Definition insert_values (t : ref) (v : object) : M unit :=
  λ w, let d := tables w t in
       let row := table_row (all_columns d w) v in
       match violation d row w with
       | Some e => (Err e, w)
       | None => (Ok (), set_rows t (relations w d ++ [row]) w)
       end.

(** [db.update(t).set(v).where(p)] *)
Definition update_set_where (t : ref) (v : object) (p : object → bool)
    : M unit :=
  λ w, (Ok (), set_rows t
                 (List.map (λ r, if p r then spread r v else r) (rows_of t w))
                 w).

(** [db.delete(t).where(p)] *)
Definition delete_where (t : ref) (p : object → bool) : M unit :=
  λ w, (Ok (), set_rows t (List.filter (λ r, negb (p r)) (rows_of t w)) w).

End Orm.
Export Orm.

(** ** The adapter (postgresql.ts) *)

Module Adapter.

(** [dynamicSchema(table, schema)]: writes the schema slot of the object
    [table] refers to and returns the same reference. *)
Definition dynamicSchema (table : ref) (schema : string) : M ref :=
  λ w, (Ok table,
        {| tables :=
             <[table := {| tbl_name := tbl_name (tables w table);
                           tbl_schema := Some schema |}]> (tables w);
           relations := relations w;
           columns := columns w;
           references := references w |}).

(** [class DrizzlePostgreSQLAdapter]; its [db] field is the store of the
    world. *)
Record DrizzlePostgreSQLAdapter : Type := mkAdapter {
  sessionTable : ref;
  userTable : ref;
  defaultSchema : string
}.

Section Methods.

Variable this : DrizzlePostgreSQLAdapter.

(** [schema ? dynamicSchema(this.sessionTable, schema) : this.sessionTable] *)
Definition getSessionTable (schema : option string) : M ref :=
  match schema with
  | Some s =>
      if truthy s then dynamicSchema (sessionTable this) s
      else mret (sessionTable this)
  | None => mret (sessionTable this)
  end.

Definition getUserTable (schema : option string) : M ref :=
  match schema with
  | Some s =>
      if truthy s then dynamicSchema (userTable this) s
      else mret (userTable this)
  | None => mret (userTable this)
  end.

(** [const { id, userId, expiresAt, ...attributes } = raw] *)
Definition transformIntoDatabaseSession (raw : object) : DatabaseSession :=
  {| userId := prop raw "userId";
     id := prop raw "id";
     expiresAt := prop raw "expiresAt";
     attributes := rest ["id"; "userId"; "expiresAt"] raw |}.

(** [const { id, ...attributes } = raw] *)
Definition transformIntoDatabaseUser (raw : object) : DatabaseUser :=
  {| user_id := prop raw "id";
     user_attributes := rest ["id"] raw |}.

Definition deleteSession (sessionId : string) (schema : option string)
    : M unit :=
  sessionTable ← getSessionTable schema;
  delete_where sessionTable (eq_ "id" (VStr sessionId)).

Definition deleteUserSessions (userId : UserId) (schema : option string)
    : M unit :=
  sessionTable ← getSessionTable schema;
  delete_where sessionTable (eq_ "userId" (VStr userId)).

Definition getSessionAndUser (sessionId : string) (schema : option string)
    : M (option DatabaseSession * option DatabaseUser) :=
  sessionTable ← getSessionTable schema;
  userTable ← getUserTable schema;
  result ← select_join_where sessionTable userTable (eq_cols "userId" "id")
             (eq_ "id" (VStr sessionId));
  match result with
  | [r] => mret (Some (transformIntoDatabaseSession (session r)),
                 Some (transformIntoDatabaseUser (user r)))
  | _ => mret (None, None)
  end.

Definition getUserSessions (userId : UserId) (schema : option string)
    : M (list DatabaseSession) :=
  sessionTable ← getSessionTable schema;
  result ← select_where sessionTable (eq_ "userId" (VStr userId));
  mret (List.map transformIntoDatabaseSession result).

(** The object literal of [setSession]:
    [{ id: .., userId: .., expiresAt: .., ...session.attributes }]. *)
Definition session_values (s : DatabaseSession) : object :=
  spread {[ "id" := id s; "userId" := userId s; "expiresAt" := expiresAt s ]}
         (attributes s).

Definition setSession (s : DatabaseSession) (schema : option string)
    : M unit :=
  sessionTable ← getSessionTable schema;
  insert_values sessionTable (session_values s).

Definition updateSessionExpiration (sessionId : string) (expiresAt : Date)
    (schema : option string) : M unit :=
  sessionTable ← getSessionTable schema;
  update_set_where sessionTable {[ "expiresAt" := VDate expiresAt ]}
    (eq_ "id" (VStr sessionId)).

(** [now] is the value of [new Date()] read during the call. *)
Definition deleteExpiredSessions (now : Date) (schema : option string)
    : M unit :=
  sessionTable ← getSessionTable schema;
  delete_where sessionTable (lte "expiresAt" now).

End Methods.

End Adapter.
Export Adapter.

(** ** Calls through the [Adapter] interface *)

(** One call of a method of [interface Adapter], with its arguments. *)
Inductive Call : Type :=
  | GetSessionAndUser (sessionId : string) (schema : option string)
  | GetUserSessions (userId : UserId) (schema : option string)
  | SetSession (s : DatabaseSession) (schema : option string)
  | UpdateSessionExpiration (sessionId : string) (expiresAt : Date)
      (schema : option string)
  | DeleteSession (sessionId : string) (schema : option string)
  | DeleteUserSessions (userId : UserId) (schema : option string)
  | DeleteExpiredSessions (now : Date) (schema : option string).

Inductive Reply : Type :=
  | Void
  | SessionAndUser (r : option DatabaseSession * option DatabaseUser)
  | Sessions (l : list DatabaseSession).

Definition schema_of (c : Call) : option string :=
  match c with
  | GetSessionAndUser _ schema | GetUserSessions _ schema
  | SetSession _ schema | UpdateSessionExpiration _ _ schema
  | DeleteSession _ schema | DeleteUserSessions _ schema
  | DeleteExpiredSessions _ schema => schema
  end.

Definition void (m : M unit) : M Reply := _ ← m; mret Void.

Definition call (this : DrizzlePostgreSQLAdapter) (c : Call) : M Reply :=
  match c with
  | GetSessionAndUser sessionId schema =>
      r ← getSessionAndUser this sessionId schema; mret (SessionAndUser r)
  | GetUserSessions userId schema =>
      l ← getUserSessions this userId schema; mret (Sessions l)
  | SetSession s schema => void (setSession this s schema)
  | UpdateSessionExpiration sessionId t schema =>
      void (updateSessionExpiration this sessionId t schema)
  | DeleteSession sessionId schema => void (deleteSession this sessionId schema)
  | DeleteUserSessions userId schema =>
      void (deleteUserSessions this userId schema)
  | DeleteExpiredSessions now schema =>
      void (deleteExpiredSessions this now schema)
  end.

(** What a computation returns, and the world it leaves behind. *)
Definition result_of {A} (m : M A) (w : World) : Result A := fst (m w).
Definition world_after {A} (m : M A) (w : World) : World := snd (m w).

(** The schema slot of the adapter's own session table object. *)
Definition session_schema (this : DrizzlePostgreSQLAdapter) (w : World)
    : option string :=
  tbl_schema (tables w (sessionTable this)).

(** ** Which relation a call reads and writes *)

(** The descriptor a table object holds once a call with argument [schema]
    has passed through [getSessionTable] or [getUserTable]. *)
Definition target (schema : option string) (t : Table) : Table :=
  match schema with
  | Some s => if truthy s
              then {| tbl_name := tbl_name t; tbl_schema := Some s |}
              else t
  | None => t
  end.

(** The world after that step, for the table object at [t]. *)
Definition redirected (t : ref) (schema : option string) (w : World) : World :=
  match schema with
  | Some s => if truthy s then world_after (dynamicSchema t s) w else w
  | None => w
  end.

(** The relations a call with argument [schema] works on, read off the world
    the call starts in. *)
Definition session_relation (this : DrizzlePostgreSQLAdapter)
    (schema : option string) (w : World) : Table :=
  target schema (tables w (sessionTable this)).

Definition user_relation (this : DrizzlePostgreSQLAdapter)
    (schema : option string) (w : World) : Table :=
  target schema (tables w (userTable this)).

(** The rows [getSessionAndUser] gets back from its query. *)
Definition joined_rows (this : DrizzlePostgreSQLAdapter) (sessionId : string)
    (schema : option string) (w : World) : list joined :=
  List.filter (λ j, eq_ "id" (VStr sessionId) (session j))
    (inner_join (relations w (session_relation this schema w))
                (relations w (user_relation this schema w))
                (eq_cols "userId" "id")).

(** ** Reserved column names *)

(** The object [o] has none of the properties [names]. *)
Definition avoids (names : list string) (o : object) : Prop :=
  Forall (λ k, o !! k = None) names.

(** ** Expiry *)

(** A row has expired at [now]: its [expiresAt] is a date not after [now]. *)
Definition expired (now : Date) (r : object) : Prop :=
  ∃ t, prop r "expiresAt" = VDate t ∧ (t ≤ now)%Z.

#[global] Instance expired_dec now r : Decision (expired now r).
Proof.
  unfold expired. destruct (prop r "expiresAt") as [| | | | |t];
    try solve [right; intros (t' & [=] & _)].
  destruct (decide (t ≤ now)%Z) as [H|H].
  - left. by exists t.
  - right. intros (t' & [= <-] & H'). done.
Defined.

(** ** Columns and attributes *)

(** The names of the columns [cols]. *)
Definition column_names (cols : list Column) : gset string :=
  list_to_set (col_name <$> cols).

(** The columns a session relation declares besides [id] are [userId],
    [expiresAt] and one column per attribute of [attrs], and no attribute
    holds [undefined]. *)
Definition attributes_fit (cols : list Column) (attrs : object) : Prop :=
  column_names cols = {[ "userId"; "expiresAt" ]} ∪ dom attrs
  ∧ map_Forall (λ _ x, x ≠ VUndefined) attrs.

(** ** Calls compared *)

(** The same call with another schema argument. *)
Definition with_schema (c : Call) (schema : option string) : Call :=
  match c with
  | GetSessionAndUser sessionId _ => GetSessionAndUser sessionId schema
  | GetUserSessions userId _ => GetUserSessions userId schema
  | SetSession s _ => SetSession s schema
  | UpdateSessionExpiration sessionId t _ =>
      UpdateSessionExpiration sessionId t schema
  | DeleteSession sessionId _ => DeleteSession sessionId schema
  | DeleteUserSessions userId _ => DeleteUserSessions userId schema
  | DeleteExpiredSessions now _ => DeleteExpiredSessions now schema
  end.

(** [getSessionAndUser] is the one method that goes through
    [getUserTable]. *)
Definition uses_user_table (c : Call) : bool :=
  match c with
  | GetSessionAndUser _ _ => true
  | _ => false
  end.

(** The methods that only read. *)
Definition read_only (c : Call) : bool :=
  match c with
  | GetSessionAndUser _ _ | GetUserSessions _ _ => true
  | _ => false
  end.

(** The two table objects of the adapter denote relations of different
    names. *)
Definition distinct_tables (this : DrizzlePostgreSQLAdapter) (w : World)
    : Prop :=
  tbl_name (tables w (sessionTable this))
  ≠ tbl_name (tables w (userTable this)).

(** ** A small database used in examples *)

Module Scenario.

Definition adapter : DrizzlePostgreSQLAdapter :=
  {| sessionTable := 0%nat; userTable := 1%nat; defaultSchema := "public" |}.

Definition sessions_public : Table := mkTable "session" (Some "public").
Definition users_public : Table := mkTable "user" (Some "public").
Definition users_tenant : Table := mkTable "user" (Some "tenant").

Definition s1 : DatabaseSession :=
  typed_session "s1" "u1" 3600000 ∅.
(** A session with an attribute that is no column of the session table. *)
Definition s2 : DatabaseSession :=
  typed_session "s2" "u1" 7200000 {[ "ip" := VStr "::1" ]}.
(** A session whose attributes are the columns of the table besides the
    reserved ones: there are none. *)
Definition s4 : DatabaseSession :=
  typed_session "s4" "u1" 7200000 ∅.
(** A session whose attributes name a reserved column. *)
Definition s3 : DatabaseSession :=
  typed_session "s3" "u1" 7200000 {[ "id" := VStr "other" ]}.
Definition s1_row : object :=
  {[ "id" := VStr "s1"; "userId" := VStr "u1"; "expiresAt" := VDate 3600000 ]}.
Definition u1_row : object :=
  {[ "id" := VStr "u1"; "name" := VStr "a" ]}.

Definition heap : ref → Table :=
  λ l, match l with O => sessions_public | _ => users_public end.

(** User [u1] exists in both schemas; session [s1] only in [public]. *)
Definition store : Table → list object :=
  λ d, if decide (d = sessions_public) then [s1_row]
       else if decide (d = users_public) then [u1_row]
       else if decide (d = users_tenant) then [u1_row]
       else [].

(** Session tables have the three reserved columns and no other; user
    tables have [id] and [name]. *)
Definition schema : Table → list Column :=
  λ d, if decide (tbl_name d = "session")
       then [mkColumn "userId" true None; mkColumn "expiresAt" true None]
       else [mkColumn "name" false None].

(** [session.userId] references [user.id] of the same schema. *)
Definition foreign_keys : Table → option Table :=
  λ d, if decide (tbl_name d = "session")
       then Some (mkTable "user" (tbl_schema d))
       else None.

Definition world : World :=
  {| tables := heap; relations := store;
     columns := schema; references := foreign_keys |}.

End Scenario.

(** ** A database with an attribute column and two schemas *)

Module Tenants.

Definition adapter : DrizzlePostgreSQLAdapter :=
  {| sessionTable := 0%nat; userTable := 1%nat; defaultSchema := "main" |}.

Definition sessions (schema : string) : Table :=
  mkTable "sessions" (Some schema).
Definition users (schema : string) : Table :=
  mkTable "users" (Some schema).

Definition m1_row : object :=
  {[ "id" := VStr "m1"; "userId" := VStr "u1"; "expiresAt" := VDate 1000;
     "ip" := VStr "10.0.0.1" ]}.
Definition t1_row : object :=
  {[ "id" := VStr "t1"; "userId" := VStr "u1"; "expiresAt" := VDate 2000;
     "ip" := VStr "10.0.0.2" ]}.
Definition main_user : object :=
  {[ "id" := VStr "u1"; "name" := VStr "main" ]}.
Definition tenant_user : object :=
  {[ "id" := VStr "u1"; "name" := VStr "tenant" ]}.

Definition m1 : DatabaseSession :=
  typed_session "m1" "u1" 1000 {[ "ip" := VStr "10.0.0.1" ]}.
Definition t1 : DatabaseSession :=
  typed_session "t1" "u1" 2000 {[ "ip" := VStr "10.0.0.2" ]}.
(** A new session whose attributes are exactly the extra column [ip]. *)
Definition n1 : DatabaseSession :=
  typed_session "n1" "u1" 5000 {[ "ip" := VStr "::1" ]}.

Definition heap : ref → Table :=
  λ l, match l with O => sessions "main" | _ => users "main" end.

(** Both schemas hold a user [u1]; each has one session of its own. *)
Definition store : Table → list object :=
  λ d, if decide (d = sessions "main") then [m1_row]
       else if decide (d = users "main") then [main_user]
       else if decide (d = sessions "tenant") then [t1_row]
       else if decide (d = users "tenant") then [tenant_user]
       else [].

Definition schema : Table → list Column :=
  λ d, if decide (tbl_name d = "sessions")
       then [mkColumn "userId" true None; mkColumn "expiresAt" true None;
             mkColumn "ip" false None]
       else [mkColumn "name" false None].

Definition foreign_keys : Table → option Table :=
  λ d, if decide (tbl_name d = "sessions")
       then Some (mkTable "users" (tbl_schema d))
       else None.

Definition world : World :=
  {| tables := heap; relations := store;
     columns := schema; references := foreign_keys |}.

End Tenants.

(** * Properties *)

(** ** Objects and SQL predicates *)

Section ObjectFacts.

Implicit Types (o base over : object) (k : string) (names : list string).

Lemma rest_lookup names o k :
  rest names o !! k = if decide (k ∈ names) then None else o !! k.
Proof.
  induction names as [|n names IH].
  - destruct (decide (k ∈ [])) as [H|H]; [inversion H|done].
  - change (rest (n :: names) o) with (delete n (rest names o)).
    destruct (decide (n = k)) as [->|Hne].
    + rewrite lookup_delete_eq. rewrite decide_True; [done|left].
    + rewrite lookup_delete_ne, IH by done.
      destruct (decide (k ∈ names)) as [H|H].
      * rewrite decide_True; [done|by right].
      * rewrite decide_False; [done|].
        intros [->|?]%elem_of_cons; done.
Qed.

Lemma rest_lookup_named names o k : k ∈ names → rest names o !! k = None.
Proof. intros Hk. rewrite rest_lookup. by case_decide. Qed.

Lemma rest_lookup_other names o k : k ∉ names → rest names o !! k = o !! k.
Proof. intros Hk. rewrite rest_lookup. by case_decide. Qed.

Lemma spread_lookup base over k :
  spread base over !! k =
    match over !! k with Some v => Some v | None => base !! k end.
Proof. unfold spread. rewrite lookup_union. by destruct (over !! k), (base !! k). Qed.

Lemma prop_spread_over base over k v :
  over !! k = Some v → prop (spread base over) k = v.
Proof. intros H. unfold prop. by rewrite spread_lookup, H. Qed.

Lemma prop_spread_base base over k :
  over !! k = None → prop (spread base over) k = prop base k.
Proof. intros H. unfold prop. by rewrite spread_lookup, H. Qed.

(** Spreading attributes that avoid [names] over [base], then taking the rest
    without [names], gives the attributes back when [base] has only [names]. *)
Lemma rest_spread names base over :
  (∀ k, k ∈ names → over !! k = None) →
  (∀ k, k ∉ names → base !! k = None) →
  rest names (spread base over) = over.
Proof.
  intros Hover Hbase. apply map_eq. intros k.
  rewrite rest_lookup, spread_lookup. case_decide as Hk.
  - by rewrite Hover.
  - rewrite (Hbase k Hk). by destruct (over !! k).
Qed.

Lemma sql_eq_true (a b : value) : sql_eq a b = true → a = b.
Proof.
  destruct a, b; simpl; try discriminate; intros H;
    apply bool_decide_eq_true in H; exact H.
Qed.

Lemma sql_eq_str (a : value) (s : string) :
  sql_eq a (VStr s) = true ↔ a = VStr s.
Proof.
  split; [apply sql_eq_true|]. intros ->. simpl. by apply bool_decide_eq_true.
Qed.

Lemma sql_eq_str_l (a : value) (s : string) :
  sql_eq (VStr s) a = true ↔ a = VStr s.
Proof.
  split.
  - intros H. apply sql_eq_true in H. congruence.
  - intros ->. simpl. by apply bool_decide_eq_true.
Qed.

Lemma eq_id_str o (s : string) : eq_ "id" (VStr s) o = true ↔ prop o "id" = VStr s.
Proof. apply sql_eq_str. Qed.

End ObjectFacts.

Section Redirection.

Variable this : DrizzlePostgreSQLAdapter.
Implicit Types (w : World) (schema : option string) (t l : ref).

Lemma bind_run {A B} (m : M A) (k : A → M B) w :
  (x ← m; k x) w =
    match m w with (Ok a, w') => k a w' | (Err e, w') => (Err e, w') end.
Proof. reflexivity. Qed.

Lemma tables_redirected t schema w :
  tables (redirected t schema w) t = target schema (tables w t).
Proof.
  unfold redirected, target. destruct schema as [s|]; [|done].
  destruct (truthy s); [|done]. simpl. by rewrite fn_lookup_insert.
Qed.

Lemma tables_redirected_ne t l schema w :
  t ≠ l → tables (redirected t schema w) l = tables w l.
Proof.
  intros Hne. unfold redirected. destruct schema as [s|]; [|done].
  destruct (truthy s); [|done]. simpl. by rewrite fn_lookup_insert_ne.
Qed.

Lemma relations_redirected t schema w :
  relations (redirected t schema w) = relations w.
Proof.
  unfold redirected. destruct schema as [s|]; [|done]. by destruct (truthy s).
Qed.

Lemma target_idemp schema (d : Table) :
  target schema (target schema d) = target schema d.
Proof.
  unfold target. destruct schema as [s|]; [|done].
  destruct (truthy s) eqn:E; [|by rewrite ?E]. done.
Qed.

Lemma target_name schema (d : Table) : tbl_name (target schema d) = tbl_name d.
Proof.
  unfold target. destruct schema as [s|]; [|done]. by destruct (truthy s).
Qed.

Lemma getSessionTable_run schema w :
  getSessionTable this schema w =
    (Ok (sessionTable this), redirected (sessionTable this) schema w).
Proof.
  unfold getSessionTable, redirected. destruct schema as [s|]; [|done].
  by destruct (truthy s).
Qed.

Lemma getUserTable_run schema w :
  getUserTable this schema w =
    (Ok (userTable this), redirected (userTable this) schema w).
Proof.
  unfold getUserTable, redirected. destruct schema as [s|]; [|done].
  by destruct (truthy s).
Qed.

Lemma tables_set_rows t rs w : tables (set_rows t rs w) = tables w.
Proof. reflexivity. Qed.

Lemma relations_set_rows t rs w :
  relations (set_rows t rs w) (tables w t) = rs.
Proof. simpl. by rewrite fn_lookup_insert. Qed.

Lemma relations_set_rows_ne t rs w (d : Table) :
  d ≠ tables w t → relations (set_rows t rs w) d = relations w d.
Proof. intros Hne. simpl. by rewrite fn_lookup_insert_ne. Qed.

Lemma rows_of_redirected t schema w :
  rows_of t (redirected t schema w) = relations w (target schema (tables w t)).
Proof. unfold rows_of. by rewrite tables_redirected, relations_redirected. Qed.

End Redirection.


(** ** What each method computes *)

Section Runs.

Variable this : DrizzlePostgreSQLAdapter.
Implicit Types (w : World) (schema : option string).

Local Abbreviation st := (sessionTable this).
Local Abbreviation ut := (userTable this).

(** Every method that only uses the session table runs one statement on the
    redirected world. *)
Lemma session_statement_run {A} (stmt : ref → M A) schema w :
  (t ← getSessionTable this schema; stmt t) w =
    stmt st (redirected st schema w).
Proof. by rewrite bind_run, getSessionTable_run. Qed.

Lemma deleteSession_run sessionId schema w :
  deleteSession this sessionId schema w =
    (Ok (),
     set_rows st
       (List.filter (λ r, negb (eq_ "id" (VStr sessionId) r))
          (relations w (session_relation this schema w)))
       (redirected st schema w)).
Proof.
  unfold deleteSession. rewrite session_statement_run.
  unfold delete_where. by rewrite rows_of_redirected.
Qed.

Lemma deleteExpiredSessions_run now schema w :
  deleteExpiredSessions this now schema w =
    (Ok (),
     set_rows st
       (List.filter (λ r, negb (lte "expiresAt" now r))
          (relations w (session_relation this schema w)))
       (redirected st schema w)).
Proof.
  unfold deleteExpiredSessions. rewrite session_statement_run.
  unfold delete_where. by rewrite rows_of_redirected.
Qed.

Lemma updateSessionExpiration_run sessionId t schema w :
  updateSessionExpiration this sessionId t schema w =
    (Ok (),
     set_rows st
       (List.map (λ r, if eq_ "id" (VStr sessionId) r
                       then spread r {[ "expiresAt" := VDate t ]} else r)
          (relations w (session_relation this schema w)))
       (redirected st schema w)).
Proof.
  unfold updateSessionExpiration. rewrite session_statement_run.
  unfold update_set_where. by rewrite rows_of_redirected.
Qed.

Lemma getUserSessions_run userId schema w :
  getUserSessions this userId schema w =
    (Ok (List.map transformIntoDatabaseSession
           (List.filter (eq_ "userId" (VStr userId))
              (relations w (session_relation this schema w)))),
     redirected st schema w).
Proof.
  unfold getUserSessions. rewrite session_statement_run.
  rewrite bind_run. unfold select_where. by rewrite rows_of_redirected.
Qed.

Lemma violation_redirected (d : Table) (row : object) (t : ref) schema w :
  violation d row (redirected t schema w) = violation d row w.
Proof.
  unfold violation, all_columns, redirected.
  destruct schema as [s|]; [|done]. by destruct (truthy s).
Qed.

Lemma setSession_run s schema w :
  setSession this s schema w =
    let d := session_relation this schema w in
    let row := table_row (all_columns d w) (session_values s) in
    match violation d row w with
    | Some e => (Err e, redirected st schema w)
    | None =>
        (Ok (), set_rows st (relations w d ++ [row]) (redirected st schema w))
    end.
Proof.
  unfold setSession. rewrite session_statement_run.
  unfold insert_values. cbv zeta.
  rewrite tables_redirected, relations_redirected.
  fold (session_relation this schema w).
  replace (all_columns (session_relation this schema w)
             (redirected st schema w))
    with (all_columns (session_relation this schema w) w)
    by (unfold all_columns, redirected; destruct schema as [x|];
        [by destruct (truthy x)|done]).
  by rewrite violation_redirected.
Qed.

(** After both redirections the two table objects denote the targets, also
    when the adapter was given one object for both tables. *)
Lemma rows_of_session_both schema w :
  rows_of st (redirected ut schema (redirected st schema w)) =
    relations w (session_relation this schema w).
Proof.
  unfold rows_of, session_relation. rewrite !relations_redirected. f_equal.
  destruct (decide (ut = st)) as [->|Hne].
  - by rewrite !tables_redirected, target_idemp.
  - by rewrite tables_redirected_ne, tables_redirected.
Qed.

Lemma rows_of_user_both schema w :
  rows_of ut (redirected ut schema (redirected st schema w)) =
    relations w (user_relation this schema w).
Proof.
  unfold rows_of, user_relation. rewrite !relations_redirected. f_equal.
  rewrite tables_redirected.
  destruct (decide (st = ut)) as [Heq|Hne].
  - rewrite <- Heq. by rewrite tables_redirected, target_idemp.
  - by rewrite tables_redirected_ne.
Qed.

Lemma getSessionAndUser_run sessionId schema w :
  getSessionAndUser this sessionId schema w =
    (Ok match joined_rows this sessionId schema w with
        | [r] => (Some (transformIntoDatabaseSession (session r)),
                  Some (transformIntoDatabaseUser (user r)))
        | _ => (None, None)
        end,
     redirected ut schema (redirected st schema w)).
Proof.
  unfold getSessionAndUser. rewrite session_statement_run.
  rewrite bind_run, getUserTable_run, bind_run. unfold select_join_where.
  rewrite rows_of_session_both, rows_of_user_both.
  fold (joined_rows this sessionId schema w).
  by destruct (joined_rows this sessionId schema w) as [|r [|r' l]].
Qed.

End Runs.

(** ** Schema redirection and the table objects *)

Section SchemaRedirection.

Variable this : DrizzlePostgreSQLAdapter.
Implicit Types (w : World) (schema : option string) (c : Call).

Lemma void_run (m : M unit) w :
  world_after (void m) w = world_after m w.
Proof.
  unfold world_after, void. rewrite bind_run. by destruct (m w) as [[[]|e] w'].
Qed.

(** The heap of table objects after a call: one redirection of the session
    table, and for [getSessionAndUser] one of the user table as well. *)
Lemma tables_after_call c w :
  tables (world_after (call this c) w) =
    tables match c with
           | GetSessionAndUser _ schema =>
               redirected (userTable this) schema
                 (redirected (sessionTable this) schema w)
           | _ => redirected (sessionTable this) (schema_of c) w
           end.
Proof.
  destruct c; simpl call; rewrite ?void_run; unfold world_after.
  - by rewrite bind_run, getSessionAndUser_run.
  - by rewrite bind_run, getUserSessions_run.
  - rewrite setSession_run. cbv zeta. by destruct (violation _ _ _).
  - by rewrite updateSessionExpiration_run.
  - by rewrite deleteSession_run.
  - unfold deleteUserSessions. by rewrite session_statement_run.
  - by rewrite deleteExpiredSessions_run.
Qed.

Lemma target_truthy (s : string) (d : Table) :
  truthy s = true →
  target (Some s) d = {| tbl_name := tbl_name d; tbl_schema := Some s |}.
Proof. intros H. unfold target. by rewrite H. Qed.

(** The heap after redirecting the session table and then the user table. *)
Lemma tables_redirected_both schema w :
  let w' := redirected (userTable this) schema
              (redirected (sessionTable this) schema w) in
  tables w' (sessionTable this) = target schema (tables w (sessionTable this))
  ∧ tables w' (userTable this) = target schema (tables w (userTable this))
  ∧ (∀ l, l ≠ sessionTable this → l ≠ userTable this →
          tables w' l = tables w l).
Proof.
  intros w'. subst w'. split; [|split].
  - destruct (decide (userTable this = sessionTable this)) as [->|Hne].
    + by rewrite !tables_redirected, target_idemp.
    + by rewrite tables_redirected_ne, tables_redirected.
  - rewrite tables_redirected.
    destruct (decide (sessionTable this = userTable this)) as [E|Hne].
    + by rewrite <- E, tables_redirected, target_idemp.
    + by rewrite tables_redirected_ne.
  - intros l Hs Hu. by rewrite !tables_redirected_ne.
Qed.
(** The constructor argument [defaultSchema] is stored and never read. *)
Lemma defaultSchema_not_read (st ut : ref) (d d' : string) c w :
  call (mkAdapter st ut d) c w = call (mkAdapter st ut d') c w.
Proof. by destruct c. Qed.

End SchemaRedirection.

(** C1, as stated, fails: a call with a schema argument overwrites the schema
    slot of the adapter's own session table object, and [dynamicSchema] does
    the same to the object it is given. *)
Lemma schema_call_mutates_base_table :
  tables (world_after (call Scenario.adapter
                         (DeleteSession "s1" (Some "tenant")))
            Scenario.world)
         (sessionTable Scenario.adapter)
    ≠ tables Scenario.world (sessionTable Scenario.adapter)
  ∧ tables (world_after (dynamicSchema 0%nat "tenant") Scenario.world) 0%nat
    ≠ tables Scenario.world 0%nat.
Proof. split; vm_compute; discriminate. Qed.

(** C1, amended: for every call with a non-empty schema argument [s], the
    table reference the call uses is the adapter's stored reference itself
    ([dynamicSchema] returns its argument), and the call overwrites the schema
    slot of that object in place: afterwards the stored session table has
    schema [s] and its old name; the stored user table keeps its name, has
    schema [s] after [getSessionAndUser] and is untouched by the other
    methods; no other table object changes. *)
Theorem schema_call_redirects_in_place
    (this : DrizzlePostgreSQLAdapter) (c : Call) (s : string) (w : World) :
  schema_of c = Some s →
  truthy s = true →
  let w' := world_after (call this c) w in
  (∀ t w0, result_of (dynamicSchema t s) w0 = Ok t)
  ∧ result_of (getSessionTable this (Some s)) w = Ok (sessionTable this)
  ∧ result_of (getUserTable this (Some s)) w = Ok (userTable this)
  ∧ tables w' (sessionTable this) =
      {| tbl_name := tbl_name (tables w (sessionTable this));
         tbl_schema := Some s |}
  ∧ tbl_name (tables w' (userTable this)) = tbl_name (tables w (userTable this))
  ∧ match c with
    | GetSessionAndUser _ _ => tbl_schema (tables w' (userTable this)) = Some s
    | _ => userTable this ≠ sessionTable this →
           tables w' (userTable this) = tables w (userTable this)
    end
  ∧ (∀ l, l ≠ sessionTable this → l ≠ userTable this →
          tables w' l = tables w l).
Proof.
  intros Hs Ht w'. subst w'. rewrite tables_after_call.
  split; [done|].
  split; [unfold result_of; by rewrite getSessionTable_run|].
  split; [unfold result_of; by rewrite getUserTable_run|].
  destruct (tables_redirected_both this (Some s) w) as (Hboth_s & Hboth_u & Hboth_o).
  pose proof (tables_redirected (sessionTable this) (Some s) w) as Hone_s.
  rewrite target_truthy in Hboth_s, Hboth_u, Hone_s by done.
  assert (Hone_u : userTable this ≠ sessionTable this →
            tables (redirected (sessionTable this) (Some s) w) (userTable this)
            = tables w (userTable this)).
  { intros Hne. by apply tables_redirected_ne. }
  assert (Hone_name :
            tbl_name (tables (redirected (sessionTable this) (Some s) w)
                        (userTable this))
            = tbl_name (tables w (userTable this))).
  { destruct (decide (userTable this = sessionTable this)) as [E|Hne].
    - by rewrite E, Hone_s.
    - by rewrite Hone_u. }
  assert (Hone_o : ∀ l, l ≠ sessionTable this → l ≠ userTable this →
            tables (redirected (sessionTable this) (Some s) w) l = tables w l).
  { intros l Hl _. by apply tables_redirected_ne. }
  destruct c; simpl in Hs; subst schema; cbn [schema_of];
    repeat split; try done.
  - by rewrite Hboth_u.
  - by rewrite Hboth_u.
Qed.

Lemma schema_call_redirects_in_place_witness :
  schema_of (DeleteSession "s1" (Some "tenant")) = Some "tenant"
  ∧ truthy "tenant" = true
  ∧ tables (world_after (call Scenario.adapter
                           (DeleteSession "s1" (Some "tenant")))
              Scenario.world) (sessionTable Scenario.adapter)
    = {| tbl_name := "session"; tbl_schema := Some "tenant" |}.
Proof.
  split; [reflexivity|]. split; [reflexivity|].
  apply (schema_call_redirects_in_place Scenario.adapter
           (DeleteSession "s1" (Some "tenant")) "tenant" Scenario.world);
    reflexivity.
Defined.

(** C2 on the code: the adapter is built with [defaultSchema = "public"] over
    tables declared in [public], where user [u1] has session [s1].  A first
    call names the schema [tenant]; the next call names none.  It runs
    against [tenant] (and finds nothing), not against the default schema,
    although the same call on the fresh adapter finds [s1]. *)
Theorem call_without_schema_keeps_previous_schema :
  let first := call Scenario.adapter (GetUserSessions "u1" (Some "tenant")) in
  let second := call Scenario.adapter (GetUserSessions "u1" None) in
  let w1 := world_after first Scenario.world in
  defaultSchema Scenario.adapter = "public"
  ∧ session_schema Scenario.adapter Scenario.world = Some "public"
  ∧ result_of second Scenario.world = Ok (Sessions [Scenario.s1])
  ∧ session_relation Scenario.adapter None w1
    = {| tbl_name := "session"; tbl_schema := Some "tenant" |}
  ∧ result_of second w1 = Ok (Sessions []).
Proof. repeat split; vm_compute; reflexivity. Qed.

(** ** getSessionAndUser *)

Section GetSessionAndUser.

Variable this : DrizzlePostgreSQLAdapter.
Implicit Types (w : World) (schema : option string) (j : joined).

(** The query result is the inner join of the two relations on
    [session.userId = user.id], restricted to [session.id = sessionId]. *)
Lemma elem_of_joined_rows j sessionId schema w :
  j ∈ joined_rows this sessionId schema w ↔
    session j ∈ relations w (session_relation this schema w)
    ∧ user j ∈ relations w (user_relation this schema w)
    ∧ sql_eq (prop (session j) "userId") (prop (user j) "id") = true
    ∧ prop (session j) "id" = VStr sessionId.
Proof.
  unfold joined_rows, inner_join.
  rewrite !list_elem_of_In, filter_In, in_flat_map, eq_id_str.
  split.
  - intros [(s & Hs & Hj) Hid]. apply in_map_iff in Hj as (u & <- & Hu).
    apply filter_In in Hu as [Hu Hon]. simpl in *. done.
  - intros (Hs & Hu & Hon & Hid). split; [|done].
    exists (session j). split; [done|]. apply in_map_iff.
    exists (user j). split; [by destruct j|]. by apply filter_In.
Qed.

Lemma getSessionAndUser_result sessionId schema w :
  result_of (getSessionAndUser this sessionId schema) w =
    Ok match joined_rows this sessionId schema w with
       | [r] => (Some (transformIntoDatabaseSession (session r)),
                 Some (transformIntoDatabaseUser (user r)))
       | _ => (None, None)
       end.
Proof. unfold result_of. by rewrite getSessionAndUser_run. Qed.

End GetSessionAndUser.

(** C3: [getSessionAndUser] returns a session and a user exactly when the
    inner join of sessions and users on [session.userId = user.id], filtered
    by [session.id = sessionId], has exactly one row; that row is split into a
    session ([id], [userId], [expiresAt], the remaining columns as attributes)
    and a user ([id], the remaining columns as attributes).  With no row or
    more than one row it returns [(null, null)].  It never raises. *)
Theorem getSessionAndUser_one_row_or_absent
    (this : DrizzlePostgreSQLAdapter) (sessionId : string)
    (schema : option string) (w : World) :
  let rows := joined_rows this sessionId schema w in
  let result := result_of (getSessionAndUser this sessionId schema) w in
  (∀ j, j ∈ rows ↔
        session j ∈ relations w (session_relation this schema w)
        ∧ user j ∈ relations w (user_relation this schema w)
        ∧ sql_eq (prop (session j) "userId") (prop (user j) "id") = true
        ∧ prop (session j) "id" = VStr sessionId)
  ∧ (∀ j, rows = [j] →
       result =
         Ok (Some {| userId := prop (session j) "userId";
                     expiresAt := prop (session j) "expiresAt";
                     id := prop (session j) "id";
                     attributes :=
                       delete "id" (delete "userId"
                         (delete "expiresAt" (session j))) |},
             Some {| user_id := prop (user j) "id";
                     user_attributes := delete "id" (user j) |}))
  ∧ (length rows ≠ 1%nat → result = Ok (None, None))
  ∧ ((∃ s u, result = Ok (Some s, Some u)) ↔ length rows = 1%nat)
  ∧ (∃ r, result = Ok r).
Proof.
  intros rows result.
  assert (Hres := getSessionAndUser_result this sessionId schema w).
  fold rows result in Hres.
  split; [intros j; apply elem_of_joined_rows|].
  split; [intros j Hj; rewrite Hres, Hj; reflexivity|].
  split; [|split].
  - intros Hlen. rewrite Hres. by destruct rows as [|r [|r' l]].
  - rewrite Hres. destruct rows as [|r [|r' l]]; simpl; split;
      try done; try (intros (s & u & [=])); eauto.
  - rewrite Hres. eauto.
Qed.

Lemma getSessionAndUser_one_row_or_absent_witness :
  result_of (getSessionAndUser Scenario.adapter "s1" None) Scenario.world
    = Ok (Some Scenario.s1,
          Some {| user_id := VStr "u1";
                  user_attributes := {[ "name" := VStr "a" ]} |})
  ∧ result_of (getSessionAndUser Scenario.adapter "s1" (Some "tenant"))
      Scenario.world
    = Ok (None, None).
Proof.
  destruct (getSessionAndUser_one_row_or_absent Scenario.adapter "s1" None
              Scenario.world) as (_ & Hone & _).
  destruct (getSessionAndUser_one_row_or_absent Scenario.adapter "s1"
              (Some "tenant") Scenario.world) as (_ & _ & Hnone & _).
  split.
  - rewrite (Hone (mkJoined Scenario.u1_row Scenario.s1_row)); reflexivity.
  - apply Hnone. vm_compute. discriminate.
Defined.

(** ** Facts about the query layer *)

Section OrmFacts.

Implicit Types (srows urows rows : list object) (p : object → bool)
  (on : object → object → bool).

Lemma inner_join_app srows1 srows2 urows on :
  inner_join (srows1 ++ srows2) urows on =
    inner_join srows1 urows on ++ inner_join srows2 urows on.
Proof. unfold inner_join. apply flat_map_app. Qed.

Lemma inner_join_cons s srows urows on :
  inner_join (s :: srows) urows on =
    List.map (λ u, mkJoined u s) (List.filter (on s) urows)
      ++ inner_join srows urows on.
Proof. reflexivity. Qed.

Lemma filter_session_map p s (l : list object) :
  List.filter (λ j, p (session j)) (List.map (λ u, mkJoined u s) l) =
    if p s then List.map (λ u, mkJoined u s) l else [].
Proof.
  induction l as [|u l IH]; simpl.
  - by destruct (p s).
  - rewrite IH. by destruct (p s).
Qed.

(** A condition on the session columns can be applied before the join. *)
Lemma filter_session_inner_join p srows urows on :
  List.filter (λ j, p (session j)) (inner_join srows urows on) =
    inner_join (List.filter p srows) urows on.
Proof.
  induction srows as [|s srows IH]; [reflexivity|].
  rewrite inner_join_cons, List.filter_app, IH, filter_session_map.
  simpl List.filter. by destruct (p s).
Qed.

Lemma filter_none p rows :
  existsb p rows = false → List.filter p rows = [].
Proof.
  induction rows as [|r rows IH]; [done|]. simpl.
  intros [Hr Hrows]%orb_false_iff. rewrite Hr. by apply IH.
Qed.

Lemma filter_ext_in_list p q rows :
  (∀ r, r ∈ rows → p r = q r) → List.filter p rows = List.filter q rows.
Proof.
  intros H. apply List.filter_ext_in. intros r Hr. apply H.
  by apply list_elem_of_In.
Qed.

End OrmFacts.

(** ** Rows and domain records *)

Section Transforms.

Implicit Types (raw : object) (s : DatabaseSession) (k : string).

Lemma avoids_lookup names (o : object) k :
  avoids names o → k ∈ names → o !! k = None.
Proof.
  unfold avoids. rewrite List.Forall_forall. intros H Hk.
  by apply H, list_elem_of_In.
Qed.

Lemma avoids_intro names (o : object) :
  (∀ k, k ∈ names → o !! k = None) → avoids names o.
Proof.
  intros H. apply List.Forall_forall. intros k Hk.
  by apply H, list_elem_of_In.
Qed.

Lemma session_attributes_lookup raw k :
  attributes (transformIntoDatabaseSession raw) !! k =
    if decide (k ∈ session_reserved) then None else raw !! k.
Proof. apply rest_lookup. Qed.

Lemma user_attributes_lookup raw k :
  user_attributes (transformIntoDatabaseUser raw) !! k =
    if decide (k ∈ user_reserved) then None else raw !! k.
Proof. apply rest_lookup. Qed.

Lemma session_attributes_avoid raw :
  avoids session_reserved (attributes (transformIntoDatabaseSession raw)).
Proof.
  apply avoids_intro. intros k Hk. rewrite session_attributes_lookup.
  by rewrite decide_True.
Qed.

Lemma user_attributes_avoid raw :
  avoids user_reserved (user_attributes (transformIntoDatabaseUser raw)).
Proof.
  apply avoids_intro. intros k Hk. rewrite user_attributes_lookup.
  by rewrite decide_True.
Qed.

Lemma session_values_lookup s k :
  session_values s !! k =
    match attributes s !! k with
    | Some v => Some v
    | None =>
        ({[ "id" := id s; "userId" := userId s; "expiresAt" := expiresAt s ]}
           : object) !! k
    end.
Proof. apply spread_lookup. Qed.

Lemma session_values_avoiding s :
  avoids session_reserved (attributes s) →
  prop (session_values s) "id" = id s
  ∧ prop (session_values s) "userId" = userId s
  ∧ prop (session_values s) "expiresAt" = expiresAt s.
Proof.
  intros H. unfold prop. rewrite !session_values_lookup.
  rewrite !(avoids_lookup _ _ _ H) by (unfold session_reserved; set_solver).
  done.
Qed.

(** The row built by [setSession] maps back to the session. *)
Lemma transform_session_values s :
  avoids session_reserved (attributes s) →
  transformIntoDatabaseSession (session_values s) = s.
Proof.
  intros H. destruct (session_values_avoiding s H) as (Hid & Huid & Hexp).
  unfold transformIntoDatabaseSession. rewrite Hid, Huid, Hexp.
  destruct s as [u e i a]. cbn [userId expiresAt id attributes] in *.
  f_equal. unfold session_values. cbn [userId expiresAt id attributes].
  apply (rest_spread session_reserved);
    [intros k Hk; by apply (avoids_lookup _ _ _ H)|].
  intros k Hk. rewrite !lookup_insert_ne, lookup_singleton_ne; [done|..];
    intros <-; apply Hk; unfold session_reserved; set_solver.
Qed.

End Transforms.

(** C9: the attributes of every session and user the adapter returns hold no
    reserved name.  The session transform drops exactly [id], [userId] and
    [expiresAt] from the row, the user transform drops exactly [id]; every
    other column is kept as it is.  This holds for the results of
    [getSessionAndUser] and [getUserSessions], whatever columns the rows
    have. *)
Theorem adapter_outputs_avoid_reserved_names
    (this : DrizzlePostgreSQLAdapter) (schema : option string) (w : World) :
  (∀ raw k,
     attributes (transformIntoDatabaseSession raw) !! k =
       if decide (k ∈ ["id"; "userId"; "expiresAt"]) then None else raw !! k)
  ∧ (∀ raw k,
       user_attributes (transformIntoDatabaseUser raw) !! k =
         if decide (k ∈ ["id"]) then None else raw !! k)
  ∧ (∀ sessionId s u,
       result_of (getSessionAndUser this sessionId schema) w
         = Ok (Some s, Some u) →
       avoids session_reserved (attributes s)
       ∧ avoids user_reserved (user_attributes u))
  ∧ (∀ userId l,
       result_of (getUserSessions this userId schema) w = Ok l →
       Forall (λ s, avoids session_reserved (attributes s)) l).
Proof.
  split; [apply session_attributes_lookup|].
  split; [apply user_attributes_lookup|].
  split.
  - intros sessionId s u. rewrite getSessionAndUser_result.
    destruct (joined_rows _ _ _ _) as [|j [|j' l]]; intros [=]; subst.
    split; [apply session_attributes_avoid|apply user_attributes_avoid].
  - intros userId l. unfold result_of. rewrite getUserSessions_run.
    intros [= <-]. apply List.Forall_map, List.Forall_forall.
    intros raw _. apply session_attributes_avoid.
Qed.

Lemma adapter_outputs_avoid_reserved_names_witness :
  avoids session_reserved (attributes Scenario.s1)
  ∧ avoids user_reserved
      (user_attributes (transformIntoDatabaseUser Scenario.u1_row)).
Proof.
  destruct (adapter_outputs_avoid_reserved_names Scenario.adapter None
              Scenario.world) as (_ & _ & H & _).
  apply (H "s1"). reflexivity.
Defined.

(** ** The row an insert stores *)

Section StoredRows.

Implicit Types (cols : list Column) (v row : object) (k : string).

Lemma table_row_cons (c : Column) cols v :
  table_row (c :: cols) v
  = <[col_name c := column_value c v]> (table_row cols v).
Proof. reflexivity. Qed.

(** A value given for a column is stored as it is. *)
Lemma table_row_lookup_given cols v k (x : value) :
  k ∈ col_name <$> cols → v !! k = Some x → x ≠ VUndefined →
  table_row cols v !! k = Some x.
Proof.
  intros Hk Hv Hx. induction cols as [|c cols IH]; [inversion Hk|].
  rewrite table_row_cons. destruct (decide (col_name c = k)) as [<-|Hne].
  - rewrite lookup_insert_eq. unfold column_value. rewrite Hv.
    by destruct x.
  - rewrite lookup_insert_ne by done. apply IH.
    rewrite fmap_cons in Hk. apply elem_of_cons in Hk as [Hk|Hk]; [|done].
    by destruct Hne.
Qed.

(** A property that names no column is dropped. *)
Lemma table_row_lookup_other cols v k :
  k ∉ col_name <$> cols → table_row cols v !! k = None.
Proof.
  intros Hk. induction cols as [|c cols IH]; [done|].
  rewrite table_row_cons. rewrite fmap_cons in Hk.
  apply not_elem_of_cons in Hk as [Hne Hk].
  rewrite lookup_insert_ne by done. by apply IH.
Qed.

(** An object that has a value, not [undefined], for each column and no
    other property is stored unchanged. *)
Lemma table_row_same cols v :
  (∀ k, k ∈ col_name <$> cols ↔ is_Some (v !! k)) →
  map_Forall (λ _ x, x ≠ VUndefined) v →
  table_row cols v = v.
Proof.
  intros Hcols Hdef. apply map_eq. intros k.
  destruct (v !! k) as [x|] eqn:Hv.
  - apply table_row_lookup_given; [apply Hcols; rewrite Hv; eauto|done|].
    by apply (Hdef k x).
  - apply table_row_lookup_other. intros Hk%Hcols. rewrite Hv in Hk.
    by destruct Hk.
Qed.

Lemma table_row_id cols v :
  prop (table_row (id_column :: cols) v) "id" = column_value id_column v.
Proof. unfold prop. by rewrite table_row_cons, lookup_insert_eq. Qed.

(** An accepted row has an [id], the one given, and that id is new. *)
Lemma violation_None (d : Table) (w : World) v :
  violation d (table_row (all_columns d w) v) w = None →
  prop (table_row (all_columns d w) v) "id" = prop v "id"
  ∧ is_null (prop v "id") = false
  ∧ existsb (eq_ "id" (prop v "id")) (relations w d) = false.
Proof.
  intros Hv. unfold violation in Hv.
  destruct (existsb _ (all_columns d w)) eqn:Hnn; [discriminate|].
  destruct (existsb _ (relations w d)) eqn:Hpk; [discriminate|]. clear Hv.
  unfold all_columns in Hnn, Hpk |- *. cbn [existsb] in Hnn.
  apply orb_false_iff in Hnn as [Hid _].
  cbn [id_column col_notNull col_name andb] in Hid.
  rewrite table_row_id in Hid, Hpk |- *.
  assert (Hgiven : column_value id_column v = prop v "id").
  { unfold column_value, prop in *. cbn [id_column col_name col_default] in *.
    by destruct (v !! "id") as [[]|]. }
  by rewrite Hgiven in Hid, Hpk |- *.
Qed.

End StoredRows.

(** C10: [setSession] writes the three reserved fields first and spreads
    [session.attributes] over them.  An attribute named [id], [userId] or
    [expiresAt] therefore replaces the session's own field in the inserted
    row; the row carries the session's own [id], [userId] and [expiresAt]
    only when the attributes avoid the reserved names.  The row appended to
    the relation is this object as the table stores it: with its [id], with
    every value it gives for a column, and without the properties that name
    no column. *)
Theorem setSession_attributes_override_reserved
    (this : DrizzlePostgreSQLAdapter) (s : DatabaseSession)
    (schema : option string) (w : World) :
  (∀ k, session_values s !! k =
        match attributes s !! k with
        | Some v => Some v
        | None =>
            if decide (k = "id") then Some (id s)
            else if decide (k = "userId") then Some (userId s)
            else if decide (k = "expiresAt") then Some (expiresAt s)
            else None
        end)
  ∧ (∀ k v, k ∈ session_reserved → attributes s !! k = Some v →
            prop (session_values s) k = v)
  ∧ (avoids session_reserved (attributes s) →
       prop (session_values s) "id" = id s
       ∧ prop (session_values s) "userId" = userId s
       ∧ prop (session_values s) "expiresAt" = expiresAt s)
  ∧ (result_of (setSession this s schema) w = Ok () →
       let q := session_relation this schema w in
       let row := table_row (all_columns q w) (session_values s) in
       relations (world_after (setSession this s schema) w) q
       = relations w q ++ [row]
       ∧ prop row "id" = prop (session_values s) "id"
       ∧ (∀ k x, k ∈ col_name <$> all_columns q w →
                 session_values s !! k = Some x → x ≠ VUndefined →
                 row !! k = Some x)
       ∧ (∀ k, k ∉ col_name <$> all_columns q w → row !! k = None)).
Proof.
  split.
  { intros k. rewrite session_values_lookup.
    destruct (attributes s !! k); [done|].
    repeat case_decide; subst; try done.
    by rewrite !lookup_insert_ne, lookup_singleton_ne. }
  split.
  { intros k v _ Hk. unfold prop. by rewrite session_values_lookup, Hk. }
  split; [apply session_values_avoiding|].
  unfold result_of, world_after. rewrite setSession_run. cbv zeta.
  destruct (violation _ _ _) eqn:Hv; [discriminate|]. intros _.
  cbn [snd]. split; [|split; [|split]].
  - unfold session_relation. rewrite <- tables_redirected.
    apply relations_set_rows.
  - by apply violation_None in Hv as [? _].
  - apply table_row_lookup_given.
  - apply table_row_lookup_other.
Qed.

Lemma setSession_attributes_override_reserved_witness :
  prop (session_values Scenario.s3) "id" = VStr "other"
  ∧ id Scenario.s3 = VStr "s3"
  ∧ prop (session_values Scenario.s2) "id" = VStr "s2"
  ∧ relations (world_after (setSession Scenario.adapter Scenario.s3 None)
                 Scenario.world) Scenario.sessions_public
    = [Scenario.s1_row; session_values Scenario.s3].
Proof.
  destruct (setSession_attributes_override_reserved Scenario.adapter
              Scenario.s3 None Scenario.world) as (_ & Hover & _ & Hrow).
  destruct (setSession_attributes_override_reserved Scenario.adapter
              Scenario.s2 None Scenario.world) as (_ & _ & Hplain & _).
  split; [apply Hover; [left|reflexivity]|].
  split; [reflexivity|].
  split; [apply Hplain; unfold Scenario.s2; repeat constructor|].
  destruct Hrow as [Hrow _]; [reflexivity|].
  change Scenario.sessions_public
    with (session_relation Scenario.adapter None Scenario.world).
  rewrite Hrow. reflexivity.
Defined.

(** ** The world after a statement on the session table *)

Section AfterStatement.
Variable this : DrizzlePostgreSQLAdapter.
Implicit Types (w : World) (schema : option string).

(** The world after an accepted insert. *)
Lemma setSession_accepted s schema w :
  result_of (setSession this s schema) w = Ok () →
  let d := session_relation this schema w in
  let row := table_row (all_columns d w) (session_values s) in
  violation d row w = None
  ∧ world_after (setSession this s schema) w =
      set_rows (sessionTable this) (relations w d ++ [row])
        (redirected (sessionTable this) schema w).
Proof.
  unfold result_of, world_after. rewrite setSession_run. cbv zeta.
  by destruct (violation _ _ _).
Qed.

Lemma session_relation_after_statement rs schema w :
  session_relation this schema
    (set_rows (sessionTable this) rs (redirected (sessionTable this) schema w))
  = session_relation this schema w.
Proof.
  unfold session_relation. by rewrite tables_set_rows, tables_redirected, target_idemp.
Qed.

Lemma relations_after_statement rs schema w :
  relations
    (set_rows (sessionTable this) rs (redirected (sessionTable this) schema w))
    (session_relation this schema w) = rs.
Proof.
  unfold session_relation. rewrite <- tables_redirected.
  apply relations_set_rows.
Qed.

Lemma relations_after_statement_ne rs schema w (d : Table) :
  d ≠ session_relation this schema w →
  relations
    (set_rows (sessionTable this) rs (redirected (sessionTable this) schema w)) d
  = relations w d.
Proof.
  intros Hne. rewrite relations_set_rows_ne, relations_redirected; [done|].
  by rewrite tables_redirected.
Qed.

Lemma user_relation_after_statement rs schema w :
  tbl_name (tables w (sessionTable this)) ≠ tbl_name (tables w (userTable this)) →
  user_relation this schema
    (set_rows (sessionTable this) rs (redirected (sessionTable this) schema w))
  = user_relation this schema w
  ∧ user_relation this schema w ≠ session_relation this schema w.
Proof.
  intros Hne. unfold user_relation, session_relation. split.
  - rewrite tables_set_rows, tables_redirected_ne; [done|].
    intros E. by rewrite E in Hne.
  - intros E. apply (f_equal tbl_name) in E. by rewrite !target_name in E.
Qed.

End AfterStatement.

(** ** Inserting a session and reading it back *)

Section StoredSession.

Implicit Types (cols : list Column) (attrs : object).

Lemma session_values_is_Some (s : DatabaseSession) (k : string) :
  is_Some (session_values s !! k)
  ↔ k ∈ session_reserved ∨ is_Some (attributes s !! k).
Proof.
  rewrite session_values_lookup. unfold session_reserved.
  destruct (attributes s !! k) as [x|]; [split; eauto|].
  destruct (decide (k = "id")) as [->|?];
    [rewrite lookup_insert_eq; split; [left; left|eauto]|].
  destruct (decide (k = "userId")) as [->|?];
    [rewrite lookup_insert_ne, lookup_insert_eq by done;
     split; [left; right; left|eauto]|].
  destruct (decide (k = "expiresAt")) as [->|?];
    [rewrite !lookup_insert_ne, lookup_singleton_eq by done;
     split; [left; right; right; left|eauto]|].
  rewrite !lookup_insert_ne, lookup_singleton_ne by done.
  split; [by intros []|]. intros [Hk|[]]; [|done].
  rewrite !elem_of_cons, elem_of_nil in Hk. tauto.
Qed.

(** A session of the interface whose attributes fit the table is stored as
    the object [setSession] builds. *)
Lemma table_row_session_values cols sid (uid : UserId) (t : Date) attrs :
  attributes_fit cols attrs →
  table_row (id_column :: cols) (session_values (typed_session sid uid t attrs))
  = session_values (typed_session sid uid t attrs).
Proof.
  intros [Hnames Hdef]. apply table_row_same.
  - intros k. rewrite session_values_is_Some, fmap_cons, elem_of_cons.
    cbn [attributes typed_session id_column col_name].
    assert (Hk : k ∈ col_name <$> cols
                 ↔ k = "userId" ∨ k = "expiresAt" ∨ is_Some (attrs !! k)).
    { rewrite <- (elem_of_list_to_set (C := gset string)).
      fold (column_names cols).
      rewrite Hnames, !elem_of_union, !elem_of_singleton, elem_of_dom.
      tauto. }
    rewrite Hk. unfold session_reserved.
    rewrite !elem_of_cons, elem_of_nil. tauto.
  - intros k x. rewrite session_values_lookup.
    cbn [attributes id userId expiresAt typed_session].
    destruct (attrs !! k) as [y|] eqn:Hy.
    + intros [= <-]. by apply (Hdef k y).
    + intros Hx E. subst x.
      destruct (decide (k = "id")) as [->|?];
        [by rewrite lookup_insert_eq in Hx|].
      destruct (decide (k = "userId")) as [->|?];
        [by rewrite lookup_insert_ne, lookup_insert_eq in Hx|].
      destruct (decide (k = "expiresAt")) as [->|?];
        [by rewrite !lookup_insert_ne, lookup_singleton_eq in Hx|].
      by rewrite !lookup_insert_ne, lookup_singleton_ne in Hx.
Qed.

End StoredSession.

(** C4, as stated, fails.  The session [s2] has no reserved attribute name,
    its user exists and the insert is accepted, but its attribute [ip] is no
    column of the table: the row stored has no [ip], and the session read
    back has no attributes.  In a table that has a column [ip], a session
    inserted without [ip] is read back with [ip = null]. *)
Lemma setSession_roundtrip_depends_on_columns :
  avoids session_reserved (attributes Scenario.s2)
  ∧ List.filter (λ r, sql_eq (VStr "u1") (prop r "id"))
      (relations Scenario.world Scenario.users_public) = [Scenario.u1_row]
  ∧ result_of (setSession Scenario.adapter Scenario.s2 None) Scenario.world
    = Ok ()
  ∧ result_of (getSessionAndUser Scenario.adapter "s2" None)
      (world_after (setSession Scenario.adapter Scenario.s2 None)
         Scenario.world)
    = Ok (Some (typed_session "s2" "u1" 7200000 ∅),
          Some (transformIntoDatabaseUser Scenario.u1_row))
  ∧ typed_session "s2" "u1" 7200000 ∅ ≠ Scenario.s2
  ∧ result_of (getSessionAndUser Tenants.adapter "n2" None)
      (world_after
         (setSession Tenants.adapter (typed_session "n2" "u1" 5000 ∅) None)
         Tenants.world)
    = Ok (Some (typed_session "n2" "u1" 5000 {[ "ip" := VNull ]}),
          Some (transformIntoDatabaseUser Tenants.main_user)).
Proof.
  split; [repeat constructor|].
  repeat split; try reflexivity. vm_compute. discriminate.
Qed.

(** C4, amended: a session of the interface whose attributes avoid the
    reserved names, and whose attribute names are exactly the columns the
    session table has besides [id], [userId] and [expiresAt] (no attribute
    holding [undefined]), is inserted by [setSession];
    [getSessionAndUser] with its id and the same schema argument then
    returns that session, equal in [id], [userId], [expiresAt] and
    attributes, together with the user whose [id] is the session's [userId]
    and whose attributes are the other columns of its row.  Exactly one user
    row has that id, the session and user tables are two different
    relations, and the store accepted the insert. *)
Theorem setSession_getSessionAndUser_roundtrip
    (this : DrizzlePostgreSQLAdapter) (sid : string) (uid : UserId) (t : Date)
    (attrs : object) (schema : option string) (w : World) (u : object) :
  let s := typed_session sid uid t attrs in
  avoids session_reserved attrs →
  attributes_fit (columns w (session_relation this schema w)) attrs →
  tbl_name (tables w (sessionTable this)) ≠ tbl_name (tables w (userTable this)) →
  List.filter (λ r, sql_eq (VStr uid) (prop r "id"))
    (relations w (user_relation this schema w)) = [u] →
  result_of (setSession this s schema) w = Ok () →
  result_of (getSessionAndUser this sid schema)
    (world_after (setSession this s schema) w)
  = Ok (Some s,
        Some {| user_id := VStr uid; user_attributes := delete "id" u |}).
Proof.
  intros s Hav Hfit Hne Hu Hok.
  destruct (setSession_accepted this _ _ _ Hok) as [Hacc ->].
  apply violation_None in Hacc as (_ & _ & Hfresh).
  unfold all_columns. subst s.
  rewrite table_row_session_values by done.
  set (s := typed_session sid uid t attrs) in *.
  destruct (session_values_avoiding s Hav) as (Hid & Huid & _).
  rewrite Hid in Hfresh. simpl in Hfresh.
  rewrite getSessionAndUser_result. unfold joined_rows.
  destruct (user_relation_after_statement this
              (relations w (session_relation this schema w) ++ [session_values s])
              schema w Hne) as [-> Hdiff].
  rewrite session_relation_after_statement, relations_after_statement.
  rewrite relations_after_statement_ne by done.
  rewrite filter_session_inner_join, List.filter_app, (filter_none _ _ Hfresh).
  simpl. unfold eq_ at 1. rewrite Hid. simpl.
  rewrite bool_decide_eq_true_2 by done.
  unfold inner_join. simpl. unfold eq_cols at 1. rewrite Huid. simpl userId.
  rewrite Hu. simpl. rewrite transform_session_values by done.
  do 3 f_equal. unfold transformIntoDatabaseUser. f_equal.
  assert (Hin : In u (List.filter (λ r, sql_eq (VStr uid) (prop r "id"))
                        (relations w (user_relation this schema w))))
    by (rewrite Hu; left; reflexivity).
  apply filter_In in Hin as [_ Hin]. by apply sql_eq_str_l in Hin.
Qed.

Lemma setSession_getSessionAndUser_roundtrip_witness :
  result_of (getSessionAndUser Tenants.adapter "n1" None)
    (world_after (setSession Tenants.adapter Tenants.n1 None) Tenants.world)
  = Ok (Some Tenants.n1,
        Some {| user_id := VStr "u1";
                user_attributes := {[ "name" := VStr "main" ]} |}).
Proof.
  apply (setSession_getSessionAndUser_roundtrip Tenants.adapter "n1" "u1"
           5000 {[ "ip" := VStr "::1" ]} None Tenants.world
           Tenants.main_user).
  - repeat constructor.
  - split; [reflexivity|]. by apply map_Forall_singleton.
  - vm_compute. discriminate.
  - reflexivity.
  - reflexivity.
Defined.

(** ** Conditions as propositions *)

Section Filters.
Implicit Types (rows : list object) (f : object → bool).

(** A boolean SQL condition and the proposition it decides select the same
    rows. *)
Lemma filter_bool_prop f (P : object → Prop) `{∀ r, Decision (P r)} rows :
  (∀ r, f r = true ↔ P r) → List.filter f rows = filter P rows.
Proof.
  intros Hf. induction rows as [|r rows IH]; [done|]. simpl List.filter.
  rewrite filter_cons, IH. destruct (f r) eqn:E.
  - rewrite decide_True; [done|]. by apply Hf.
  - rewrite decide_False; [done|]. rewrite <- Hf. congruence.
Qed.

Lemma lte_expired now r : lte "expiresAt" now r = true ↔ expired now r.
Proof.
  unfold lte, expired, sql_lte. destruct (prop r "expiresAt") as [| | | | |t];
    try solve [split; [discriminate|intros (t' & [=] & _)]].
  rewrite Z.leb_le. split; [by exists t|]. by intros (t' & [= <-] & H).
Qed.

Lemma not_lte_expired now r :
  negb (lte "expiresAt" now r) = true ↔ ¬ expired now r.
Proof. rewrite negb_true_iff, <- lte_expired. by destruct (lte _ _ _). Qed.

Lemma not_eq_str col (s : string) r :
  negb (eq_ col (VStr s) r) = true ↔ prop r col ≠ VStr s.
Proof.
  rewrite negb_true_iff. unfold eq_. rewrite <- sql_eq_str.
  by destruct (sql_eq _ _).
Qed.

Lemma eq_str col (s : string) r :
  eq_ col (VStr s) r = true ↔ prop r col = VStr s.
Proof. apply sql_eq_str. Qed.

Lemma filter_all f rows :
  (∀ r, r ∈ rows → f r = true) → List.filter f rows = rows.
Proof.
  intros H. induction rows as [|r rows IH]; [done|]. simpl.
  rewrite (H r) by left. f_equal. apply IH. intros r' Hr'. apply H. by right.
Qed.

(** With unique keys, at most one row has a given key. *)
Lemma filter_key_length (key : object → value) f rows :
  (∀ r r', f r = true → f r' = true → key r = key r') →
  NoDup (key <$> rows) → (length (List.filter f rows) ≤ 1)%nat.
Proof.
  intros Hf. induction rows as [|r rows IH]; [simpl; lia|].
  intros Hnd. rewrite fmap_cons in Hnd.
  inversion Hnd as [|k ks Hr Hnd']; subst. simpl.
  destruct (f r) eqn:E; [|by apply IH].
  rewrite (filter_none f rows); [simpl; lia|].
  apply not_true_iff_false. intros (r' & Hin & Hr')%existsb_exists.
  apply Hr. rewrite (Hf r r' E Hr'). apply list_elem_of_fmap.
  exists r'. split; [done|]. by apply list_elem_of_In.
Qed.

End Filters.

(** ** updateSessionExpiration *)

(** What [set({ expiresAt })] does to one matching row. *)
Lemma set_expiresAt_row (r : object) (t : Date) :
  let r' := spread r {[ "expiresAt" := VDate t ]} in
  prop r' "expiresAt" = VDate t
  ∧ (∀ k, k ≠ "expiresAt" → r' !! k = r !! k)
  ∧ transformIntoDatabaseSession r' =
      {| userId := userId (transformIntoDatabaseSession r);
         expiresAt := VDate t;
         id := id (transformIntoDatabaseSession r);
         attributes := attributes (transformIntoDatabaseSession r) |}.
Proof.
  intros r'.
  assert (Hk : ∀ k, k ≠ "expiresAt" → r' !! k = r !! k).
  { intros k Hk. subst r'. rewrite spread_lookup, lookup_singleton_ne; done. }
  assert (He : prop r' "expiresAt" = VDate t).
  { subst r'. apply prop_spread_over. by rewrite lookup_singleton_eq. }
  split; [done|]. split; [done|].
  unfold transformIntoDatabaseSession. cbn [userId id attributes].
  rewrite He. unfold prop. rewrite !Hk by done. f_equal.
  apply map_eq. intros k.
  rewrite !(rest_lookup ["id"; "userId"; "expiresAt"]).
  case_decide as Hin; [done|]. apply Hk. intros ->. apply Hin. set_solver.
Qed.

Lemma Forall2_map_self {A} (R : A → A → Prop) (f : A → A) (l : list A) :
  (∀ x, R x (f x)) → Forall2 R l (List.map f l).
Proof. intros H. induction l; simpl; by constructor. Qed.

(** C5: [updateSessionExpiration] goes through the session relation row by
    row.  A row whose [id] is [sessionId] gets [expiresAt = t] and keeps every
    other column, so the session read back from it differs in [expiresAt]
    only; every other row stays as it is, and so does every other relation.
    When no row has that id the call succeeds and no relation changes. *)
Theorem updateSessionExpiration_sets_only_expiresAt
    (this : DrizzlePostgreSQLAdapter) (sessionId : string) (t : Date)
    (schema : option string) (w : World) :
  let q := session_relation this schema w in
  let w' := world_after (updateSessionExpiration this sessionId t schema) w in
  result_of (updateSessionExpiration this sessionId t schema) w = Ok ()
  ∧ Forall2
      (λ r r',
         (prop r "id" = VStr sessionId →
            prop r' "expiresAt" = VDate t
            ∧ (∀ k, k ≠ "expiresAt" → r' !! k = r !! k)
            ∧ transformIntoDatabaseSession r' =
                {| userId := userId (transformIntoDatabaseSession r);
                   expiresAt := VDate t;
                   id := id (transformIntoDatabaseSession r);
                   attributes := attributes (transformIntoDatabaseSession r) |})
         ∧ (prop r "id" ≠ VStr sessionId → r' = r))
      (relations w q) (relations w' q)
  ∧ (∀ d, d ≠ q → relations w' d = relations w d)
  ∧ ((∀ r, r ∈ relations w q → prop r "id" ≠ VStr sessionId) →
       ∀ d, relations w' d = relations w d).
Proof.
  intros q w'. subst w'. unfold result_of, world_after.
  rewrite updateSessionExpiration_run. cbn [fst snd]. fold q.
  set (upd := λ r : object, if eq_ "id" (VStr sessionId) r
                            then spread r {[ "expiresAt" := VDate t ]} else r).
  assert (Hrows : relations
            (set_rows (sessionTable this) (List.map upd (relations w q))
               (redirected (sessionTable this) schema w)) q
          = List.map upd (relations w q)).
  { subst q. by rewrite relations_after_statement. }
  split; [done|]. rewrite Hrows. split; [|split].
  - apply Forall2_map_self. intros r. subst upd. cbv beta.
    destruct (eq_ "id" (VStr sessionId) r) eqn:E.
    + apply eq_str in E. split; [intros _; apply set_expiresAt_row|done].
    + split; [|done]. intros H. apply eq_str in H. congruence.
  - intros d Hd. by apply relations_after_statement_ne.
  - intros Hnone d. destruct (decide (d = q)) as [->|Hd];
      [|by apply relations_after_statement_ne].
    rewrite Hrows. rewrite <- (map_id (relations w q)) at 2.
    apply map_ext_in. intros r Hr%list_elem_of_In. subst upd. simpl.
    destruct (eq_ "id" (VStr sessionId) r) eqn:E; [|done].
    apply eq_str in E. by apply Hnone in Hr.
Qed.

Lemma updateSessionExpiration_sets_only_expiresAt_witness :
  result_of (updateSessionExpiration Scenario.adapter "s9" 99 None)
    Scenario.world = Ok ()
  ∧ relations
      (world_after (updateSessionExpiration Scenario.adapter "s9" 99 None)
         Scenario.world) Scenario.sessions_public
    = [Scenario.s1_row].
Proof.
  destruct (updateSessionExpiration_sets_only_expiresAt Scenario.adapter
              "s9" 99 None Scenario.world) as (Hok & _ & _ & Hnoop).
  split; [exact Hok|].
  rewrite Hnoop; [reflexivity|].
  intros r Hr. change (r ∈ [Scenario.s1_row]) in Hr.
  apply list_elem_of_singleton in Hr as ->. vm_compute. discriminate.
Defined.

(** ** deleteExpiredSessions *)

(** C6: [deleteExpiredSessions], called when the clock reads [now], keeps
    exactly the session rows that have not expired, in their order: a row
    with [expiresAt <= now] is removed, a row with [expiresAt] after [now]
    stays, and no other relation changes. *)
Theorem deleteExpiredSessions_removes_exactly_expired
    (this : DrizzlePostgreSQLAdapter) (now : Date) (schema : option string)
    (w : World) :
  let q := session_relation this schema w in
  let w' := world_after (deleteExpiredSessions this now schema) w in
  result_of (deleteExpiredSessions this now schema) w = Ok ()
  ∧ relations w' q = filter (λ r, ¬ expired now r) (relations w q)
  ∧ (∀ r, r ∈ relations w' q ↔ r ∈ relations w q ∧ ¬ expired now r)
  ∧ (∀ r t, prop r "expiresAt" = VDate t → (t ≤ now)%Z → r ∉ relations w' q)
  ∧ (∀ r t, prop r "expiresAt" = VDate t → (now < t)%Z →
            r ∈ relations w q → r ∈ relations w' q)
  ∧ (∀ d, d ≠ q → relations w' d = relations w d).
Proof.
  intros q w'. subst w'. unfold result_of, world_after.
  rewrite deleteExpiredSessions_run. cbn [fst snd].
  assert (Hrows : relations
            (set_rows (sessionTable this)
               (List.filter (λ r, negb (lte "expiresAt" now r))
                  (relations w (session_relation this schema w)))
               (redirected (sessionTable this) schema w)) q
          = filter (λ r, ¬ expired now r) (relations w q)).
  { subst q. rewrite relations_after_statement.
    apply filter_bool_prop, not_lte_expired. }
  split; [done|]. split; [done|]. rewrite Hrows.
  split; [|split; [|split]].
  - intros r. rewrite list_elem_of_filter. tauto.
  - intros r t Ht Hle [Hne _]%list_elem_of_filter. apply Hne. by exists t.
  - intros r t Ht Hlt Hin. apply list_elem_of_filter. split; [|done].
    intros (t' & Ht' & Hle). rewrite Ht in Ht'. injection Ht' as <-. lia.
  - intros d Hd. by apply relations_after_statement_ne.
Qed.

Lemma deleteExpiredSessions_removes_exactly_expired_witness :
  Scenario.s1_row ∈
    relations (world_after (deleteExpiredSessions Scenario.adapter 3599999 None)
                 Scenario.world) Scenario.sessions_public
  ∧ Scenario.s1_row ∉
      relations (world_after (deleteExpiredSessions Scenario.adapter 3600000 None)
                   Scenario.world) Scenario.sessions_public.
Proof.
  destruct (deleteExpiredSessions_removes_exactly_expired Scenario.adapter
              3599999 None Scenario.world) as (_ & _ & _ & _ & Hkeep & _).
  destruct (deleteExpiredSessions_removes_exactly_expired Scenario.adapter
              3600000 None Scenario.world) as (_ & _ & _ & Hdrop & _).
  split.
  - apply (Hkeep _ 3600000); [reflexivity|reflexivity|].
    change (Scenario.s1_row ∈ [Scenario.s1_row]). left.
  - apply (Hdrop _ 3600000); [reflexivity|discriminate].
Defined.

(** ** getUserSessions *)




(** ** deleteSession *)

(** C8: after [deleteSession(sessionId)], [getSessionAndUser(sessionId)]
    (same schema argument) returns [(null, null)], whether or not a row had
    that id.  [deleteSession] never raises; it removes the rows with that id
    and nothing else, changes nothing when there is none, and removes at most
    one row when ids are unique. *)
Theorem deleteSession_then_absent
    (this : DrizzlePostgreSQLAdapter) (sessionId : string)
    (schema : option string) (w : World) :
  let q := session_relation this schema w in
  let w' := world_after (deleteSession this sessionId schema) w in
  result_of (deleteSession this sessionId schema) w = Ok ()
  ∧ result_of (getSessionAndUser this sessionId schema) w' = Ok (None, None)
  ∧ relations w' q = filter (λ r, prop r "id" ≠ VStr sessionId) (relations w q)
  ∧ (∀ d, d ≠ q → relations w' d = relations w d)
  ∧ ((∀ r, r ∈ relations w q → prop r "id" ≠ VStr sessionId) →
       ∀ d, relations w' d = relations w d)
  ∧ (NoDup ((λ r, prop r "id") <$> relations w q) →
       (length (relations w q) ≤ length (relations w' q) + 1)%nat).
Proof.
  intros q w'. subst w'. unfold world_after at 1 2 3 4 5.
  unfold result_of at 1. rewrite deleteSession_run. cbn [fst snd].
  set (kept := List.filter (λ r, negb (eq_ "id" (VStr sessionId) r))
                 (relations w (session_relation this schema w))).
  assert (Hrows : relations
            (set_rows (sessionTable this) kept
               (redirected (sessionTable this) schema w)) q = kept).
  { subst q. by rewrite relations_after_statement. }
  split; [done|]. split; [|split; [|split; [|split]]].
  - rewrite getSessionAndUser_result. unfold joined_rows.
    rewrite session_relation_after_statement. fold q. rewrite Hrows.
    rewrite filter_session_inner_join.
    replace (List.filter (eq_ "id" (VStr sessionId)) kept) with (@nil object);
      [done|].
    symmetry. apply filter_none. apply not_true_iff_false.
    intros (r & Hin & Hr)%existsb_exists. subst kept.
    apply filter_In in Hin as [_ Hneg]. by rewrite Hr in Hneg.
  - rewrite Hrows. subst kept. fold q. apply filter_bool_prop.
    intros r. apply not_eq_str.
  - intros d Hd. by apply relations_after_statement_ne.
  - intros Hnone d. destruct (decide (d = q)) as [->|Hd].
    + rewrite Hrows. subst kept. fold q. apply filter_all.
      intros r Hr. apply not_eq_str. by apply Hnone.
    + by apply relations_after_statement_ne.
  - intros Hnd. rewrite Hrows. subst kept. fold q.
    rewrite <- (List.filter_length (eq_ "id" (VStr sessionId)) (relations w q)).
    pose proof (filter_key_length (λ r, prop r "id")
                  (eq_ "id" (VStr sessionId)) (relations w q)) as Hone.
    cut (length (List.filter (eq_ "id" (VStr sessionId)) (relations w q)) ≤ 1)%nat;
      [lia|].
    apply Hone; [|done]. intros r r' Hr Hr'.
    apply eq_str in Hr, Hr'. congruence.
Qed.

Lemma deleteSession_then_absent_witness :
  result_of (getSessionAndUser Scenario.adapter "s1" None)
    (world_after (deleteSession Scenario.adapter "s1" None) Scenario.world)
    = Ok (None, None)
  ∧ (length (relations Scenario.world Scenario.sessions_public)
     ≤ length (relations
                 (world_after (deleteSession Scenario.adapter "s1" None)
                    Scenario.world) Scenario.sessions_public) + 1)%nat.
Proof.
  destruct (deleteSession_then_absent Scenario.adapter "s1" None
              Scenario.world) as (_ & Habsent & _ & _ & _ & Hone).
  split; [exact Habsent|]. apply Hone.
  change (NoDup [VStr "s1"]). apply NoDup_singleton.
Defined.

(** * Further properties of the adapter *)

(** ** Reading after a statement on the session table *)

Section ReadAfterStatement.

Variable this : DrizzlePostgreSQLAdapter.
Implicit Types (w : World) (schema : option string) (rs : list object).

Lemma deleteUserSessions_run uid schema w :
  deleteUserSessions this uid schema w =
    (Ok (),
     set_rows (sessionTable this)
       (List.filter (λ r, negb (eq_ "userId" (VStr uid) r))
          (relations w (session_relation this schema w)))
       (redirected (sessionTable this) schema w)).
Proof.
  unfold deleteUserSessions. rewrite session_statement_run.
  unfold delete_where. by rewrite rows_of_redirected.
Qed.

Lemma getUserSessions_after_statement uid rs schema w :
  result_of (getUserSessions this uid schema)
    (set_rows (sessionTable this) rs (redirected (sessionTable this) schema w))
  = Ok (List.map transformIntoDatabaseSession
          (List.filter (eq_ "userId" (VStr uid)) rs)).
Proof.
  unfold result_of. rewrite getUserSessions_run. cbn [fst].
  by rewrite session_relation_after_statement, relations_after_statement.
Qed.

Lemma joined_rows_after_statement sid rs schema w :
  distinct_tables this w →
  joined_rows this sid schema
    (set_rows (sessionTable this) rs (redirected (sessionTable this) schema w))
  = inner_join (List.filter (eq_ "id" (VStr sid)) rs)
      (relations w (user_relation this schema w)) (eq_cols "userId" "id").
Proof.
  intros Hd. unfold joined_rows.
  destruct (user_relation_after_statement this rs schema w Hd) as [-> Hne].
  rewrite session_relation_after_statement, relations_after_statement.
  rewrite relations_after_statement_ne by done.
  apply filter_session_inner_join.
Qed.

Lemma joined_rows_pushdown sid schema w :
  joined_rows this sid schema w
  = inner_join
      (List.filter (eq_ "id" (VStr sid))
         (relations w (session_relation this schema w)))
      (relations w (user_relation this schema w)) (eq_cols "userId" "id").
Proof. apply filter_session_inner_join. Qed.

(** The store after a statement on the session table, relation by
    relation. *)
Lemma relations_statement_lookup rs schema w (d : Table) :
  relations
    (set_rows (sessionTable this) rs (redirected (sessionTable this) schema w))
    d
  = if decide (d = session_relation this schema w) then rs else relations w d.
Proof.
  case_decide as Hd.
  - subst d. apply relations_after_statement.
  - by apply relations_after_statement_ne.
Qed.

(** The session table object after a call holds the target of the call. *)
Lemma session_table_after_call c w :
  tables (world_after (call this c) w) (sessionTable this)
  = target (schema_of c) (tables w (sessionTable this)).
Proof.
  rewrite tables_after_call.
  destruct c; cbn [schema_of];
    solve [apply tables_redirected
          |apply (tables_redirected_both this)].
Qed.

Lemma user_table_after_call c w :
  uses_user_table c = true →
  tables (world_after (call this c) w) (userTable this)
  = target (schema_of c) (tables w (userTable this)).
Proof.
  rewrite tables_after_call. destruct c; try discriminate. intros _.
  apply (tables_redirected_both this).
Qed.

End ReadAfterStatement.

(** ** Filters composed *)

Section FilterFacts.

Implicit Types (rows : list object) (f g : object → bool).

Lemma filter_filter_bool f g rows :
  List.filter f (List.filter g rows) = List.filter (λ r, g r && f r) rows.
Proof.
  induction rows as [|r rows IH]; [done|]. simpl.
  destruct (g r); simpl; [destruct (f r)|]; by rewrite IH.
Qed.

Lemma filter_ext_bool f g rows :
  (∀ r, f r = g r) → List.filter f rows = List.filter g rows.
Proof. intros H. apply List.filter_ext. exact H. Qed.

Lemma filter_negb_self f rows :
  List.filter f (List.filter (λ r, negb (f r)) rows) = [].
Proof.
  rewrite filter_filter_bool. apply filter_none, not_true_iff_false.
  intros (r & _ & Hr)%existsb_exists. by destruct (f r).
Qed.

Lemma filter_idemp f rows :
  List.filter f (List.filter f rows) = List.filter f rows.
Proof.
  rewrite filter_filter_bool. apply filter_ext_bool. intros r.
  by destruct (f r).
Qed.

End FilterFacts.

(** ** deleteUserSessions *)

(** X1: [deleteUserSessions(userId)] never raises and keeps, in their order,
    exactly the session rows whose [userId] differs from the argument; no
    other relation changes, and nothing changes at all when the user has no
    session. *)
Theorem deleteUserSessions_removes_exactly_owned
    (this : DrizzlePostgreSQLAdapter) (uid : UserId) (schema : option string)
    (w : World) :
  let q := session_relation this schema w in
  let w' := world_after (deleteUserSessions this uid schema) w in
  result_of (deleteUserSessions this uid schema) w = Ok ()
  ∧ relations w' q = filter (λ r, prop r "userId" ≠ VStr uid) (relations w q)
  ∧ (∀ d, d ≠ q → relations w' d = relations w d)
  ∧ ((∀ r, r ∈ relations w q → prop r "userId" ≠ VStr uid) →
       ∀ d, relations w' d = relations w d).
Proof.
  intros q w'. subst w'. unfold result_of, world_after.
  rewrite deleteUserSessions_run. cbn [fst snd]. fold q.
  set (kept := List.filter (λ r, negb (eq_ "userId" (VStr uid) r))
                 (relations w q)).
  assert (Hrows : relations
            (set_rows (sessionTable this) kept
               (redirected (sessionTable this) schema w)) q = kept).
  { subst q. by rewrite relations_after_statement. }
  split; [done|]. split; [|split].
  - rewrite Hrows. subst kept. apply filter_bool_prop. intros r.
    apply not_eq_str.
  - intros d Hd. by apply relations_after_statement_ne.
  - intros Hnone d. destruct (decide (d = q)) as [->|Hd];
      [|by apply relations_after_statement_ne].
    rewrite Hrows. subst kept. apply filter_all. intros r Hr.
    apply not_eq_str. by apply Hnone.
Qed.

Lemma deleteUserSessions_removes_exactly_owned_witness :
  relations (world_after (deleteUserSessions Scenario.adapter "u2" None)
               Scenario.world) Scenario.sessions_public
  = [Scenario.s1_row].
Proof.
  destruct (deleteUserSessions_removes_exactly_owned Scenario.adapter "u2"
              None Scenario.world) as (_ & _ & _ & Hnoop).
  rewrite Hnoop; [reflexivity|].
  intros r Hr. change (r ∈ [Scenario.s1_row]) in Hr.
  apply list_elem_of_singleton in Hr as ->. vm_compute. discriminate.
Defined.

(** X2: after [deleteUserSessions(userId)], [getUserSessions(userId)] with
    the same schema argument returns the empty list, and for every other user
    it returns what it returned before. *)
Theorem deleteUserSessions_then_getUserSessions
    (this : DrizzlePostgreSQLAdapter) (uid : UserId) (schema : option string)
    (w : World) :
  let w' := world_after (deleteUserSessions this uid schema) w in
  result_of (getUserSessions this uid schema) w' = Ok []
  ∧ (∀ uid', uid' ≠ uid →
       result_of (getUserSessions this uid' schema) w'
       = result_of (getUserSessions this uid' schema) w).
Proof.
  intros w'. subst w'. unfold world_after. rewrite deleteUserSessions_run.
  cbn [snd]. split.
  - by rewrite getUserSessions_after_statement, filter_negb_self.
  - intros uid' Hne. rewrite getUserSessions_after_statement.
    unfold result_of at 1. rewrite getUserSessions_run. cbn [fst].
    do 2 f_equal. rewrite filter_filter_bool. apply filter_ext_bool.
    intros r. destruct (eq_ "userId" (VStr uid') r) eqn:E'.
    + apply eq_str in E'. rewrite andb_true_r.
      apply not_eq_str. rewrite E'. congruence.
    + by rewrite andb_false_r.
Qed.

Lemma deleteUserSessions_then_getUserSessions_witness :
  result_of (getUserSessions Scenario.adapter "u1" None)
    (world_after (deleteUserSessions Scenario.adapter "u2" None)
       Scenario.world)
  = Ok [Scenario.s1].
Proof.
  destruct (deleteUserSessions_then_getUserSessions Scenario.adapter "u2"
              None Scenario.world) as [_ Hother].
  rewrite (Hother "u1"); [reflexivity|discriminate].
Defined.

(** ** The schema argument *)

(** X3: an empty schema string is falsy and is treated as no schema
    argument: every method returns the same result and leaves the same
    world, table objects included. *)
Theorem empty_schema_is_no_schema
    (this : DrizzlePostgreSQLAdapter) (c : Call) (w : World) :
  call this (with_schema c (Some "")) w = call this (with_schema c None) w.
Proof. by destruct c. Qed.

(** X4: a call writes at most the session relation it targets: every other
    relation, the user relation among them, holds the same rows afterwards,
    also when the store rejected the call.  [getSessionAndUser] and
    [getUserSessions] change no relation at all. *)
Theorem call_writes_only_session_relation
    (this : DrizzlePostgreSQLAdapter) (c : Call) (w : World) :
  let w' := world_after (call this c) w in
  (∀ d, d ≠ session_relation this (schema_of c) w →
        relations w' d = relations w d)
  ∧ (read_only c = true → ∀ d, relations w' d = relations w d).
Proof.
  intros w'. subst w'.
  destruct c; cbn [call schema_of]; rewrite ?void_run; unfold world_after;
    rewrite ?bind_run.
  - rewrite getSessionAndUser_run. cbn [snd mret M_ret ret].
    split; intros; by rewrite !relations_redirected.
  - rewrite getUserSessions_run. cbn [snd mret M_ret ret].
    split; intros; by rewrite !relations_redirected.
  - rewrite setSession_run. cbv zeta. split; [|done]. intros d Hd.
    destruct (violation _ _ _); cbn [snd].
    + by rewrite relations_redirected.
    + by apply relations_after_statement_ne.
  - rewrite updateSessionExpiration_run. cbn [snd]. split; [|done].
    intros d Hd. by apply relations_after_statement_ne.
  - rewrite deleteSession_run. cbn [snd]. split; [|done].
    intros d Hd. by apply relations_after_statement_ne.
  - rewrite deleteUserSessions_run. cbn [snd]. split; [|done].
    intros d Hd. by apply relations_after_statement_ne.
  - rewrite deleteExpiredSessions_run. cbn [snd]. split; [|done].
    intros d Hd. by apply relations_after_statement_ne.
Qed.

Lemma call_writes_only_session_relation_witness :
  relations (world_after (call Scenario.adapter
                            (DeleteUserSessions "u1" None)) Scenario.world)
            Scenario.users_public
  = [Scenario.u1_row].
Proof.
  destruct (call_writes_only_session_relation Scenario.adapter
              (DeleteUserSessions "u1" None) Scenario.world) as [Hframe _].
  rewrite Hframe; [reflexivity|]. vm_compute. discriminate.
Defined.

Section TargetOnly.

Variable this : DrizzlePostgreSQLAdapter.
Implicit Types (w : World) (schema : option string) (c : Call).

(** A call depends on its schema argument only through the relations the
    argument selects. *)
Lemma call_depends_on_target c schema1 schema2 w :
  session_relation this schema1 w = session_relation this schema2 w →
  (uses_user_table c = true →
   user_relation this schema1 w = user_relation this schema2 w) →
  result_of (call this (with_schema c schema1)) w
  = result_of (call this (with_schema c schema2)) w
  ∧ ∀ d, relations (world_after (call this (with_schema c schema1)) w) d
         = relations (world_after (call this (with_schema c schema2)) w) d.
Proof.
  intros Hs Hu.
  destruct c; cbn [call with_schema]; unfold result_of, world_after, void;
    rewrite !bind_run.
  - rewrite !getSessionAndUser_run. cbn [fst snd mret M_ret ret].
    unfold joined_rows. rewrite Hs, (Hu eq_refl).
    split; [done|]. intros d. by rewrite !relations_redirected.
  - rewrite !getUserSessions_run. cbn [fst snd mret M_ret ret]. rewrite Hs.
    split; [done|]. intros d. by rewrite !relations_redirected.
  - rewrite !setSession_run. cbv zeta. rewrite Hs.
    destruct (violation _ _ _); cbn [fst snd mret M_ret ret].
    + split; [done|]. intros d. by rewrite !relations_redirected.
    + split; [done|]. intros d. by rewrite !relations_statement_lookup, Hs.
  - rewrite !updateSessionExpiration_run. cbn [fst snd mret M_ret ret].
    split; [done|]. intros d. by rewrite !relations_statement_lookup, Hs.
  - rewrite !deleteSession_run. cbn [fst snd mret M_ret ret].
    split; [done|]. intros d. by rewrite !relations_statement_lookup, Hs.
  - rewrite !deleteUserSessions_run. cbn [fst snd mret M_ret ret].
    split; [done|]. intros d. by rewrite !relations_statement_lookup, Hs.
  - rewrite !deleteExpiredSessions_run. cbn [fst snd mret M_ret ret].
    split; [done|]. intros d. by rewrite !relations_statement_lookup, Hs.
Qed.

End TargetOnly.

(** X5: the schema written by a call stays in the table object.  After a
    call with a non-empty schema [s], a call without schema argument returns
    the same result and leaves the same rows in every relation as that call
    with schema [s]; for [getSessionAndUser] this holds when the earlier call
    was a [getSessionAndUser] too, the only method that also redirects the
    user table. *)
Theorem schema_argument_sticks
    (this : DrizzlePostgreSQLAdapter) (c1 c2 : Call) (s : string) (w : World) :
  schema_of c1 = Some s →
  truthy s = true →
  (uses_user_table c2 = true → uses_user_table c1 = true) →
  let w1 := world_after (call this c1) w in
  result_of (call this (with_schema c2 None)) w1
  = result_of (call this (with_schema c2 (Some s))) w1
  ∧ ∀ d, relations (world_after (call this (with_schema c2 None)) w1) d
         = relations (world_after (call this (with_schema c2 (Some s))) w1) d.
Proof.
  intros Hs Ht Huses w1. subst w1. apply call_depends_on_target.
  - unfold session_relation. rewrite session_table_after_call, Hs.
    by rewrite target_idemp.
  - intros H2. unfold user_relation.
    rewrite user_table_after_call, Hs by auto. by rewrite target_idemp.
Qed.

Lemma schema_argument_sticks_witness :
  result_of (call Scenario.adapter (GetUserSessions "u1" None))
    (world_after (call Scenario.adapter (DeleteSession "s9" (Some "tenant")))
       Scenario.world)
  = Ok (Sessions []).
Proof.
  destruct (schema_argument_sticks Scenario.adapter
              (DeleteSession "s9" (Some "tenant")) (GetUserSessions "u1" None)
              "tenant" Scenario.world) as [Hres _];
    [reflexivity|reflexivity|discriminate|].
  cbn [with_schema] in Hres. rewrite Hres. reflexivity.
Defined.

(** ** setSession followed by other methods *)

(** X6: after an accepted [setSession] of a session of the interface whose
    attributes avoid the reserved names and are exactly the extra columns of
    the session table, [getUserSessions] (same schema argument) returns, up
    to order, for the session's user the former sessions and the new one,
    and for every other user the former sessions. *)
Theorem setSession_then_getUserSessions
    (this : DrizzlePostgreSQLAdapter) (sid : string) (uid : UserId) (t : Date)
    (attrs : object) (schema : option string) (w : World) (uid' : UserId) :
  let s := typed_session sid uid t attrs in
  avoids session_reserved attrs →
  attributes_fit (columns w (session_relation this schema w)) attrs →
  result_of (setSession this s schema) w = Ok () →
  ∃ before after,
    result_of (getUserSessions this uid' schema) w = Ok before
    ∧ result_of (getUserSessions this uid' schema)
        (world_after (setSession this s schema) w) = Ok after
    ∧ after ≡ₚ (if decide (uid' = uid) then s :: before else before).
Proof.
  intros s Hav Hfit Hok.
  destruct (setSession_accepted this _ _ _ Hok) as [_ ->].
  unfold all_columns. subst s. rewrite table_row_session_values by done.
  set (s := typed_session sid uid t attrs) in *.
  destruct (session_values_avoiding s Hav) as (_ & Huid & _).
  eexists _, _. split.
  { unfold result_of. rewrite getUserSessions_run. reflexivity. }
  split; [apply getUserSessions_after_statement|].
  rewrite List.filter_app, List.map_app.
  simpl List.filter. unfold eq_ at 2. rewrite Huid. simpl.
  case_decide as Hu.
  - subst uid'. rewrite bool_decide_eq_true_2 by done. simpl.
    rewrite transform_session_values by done.
    symmetry. apply Permutation_cons_append.
  - rewrite bool_decide_eq_false_2 by congruence. simpl.
    by rewrite app_nil_r.
Qed.

Lemma setSession_then_getUserSessions_witness :
  ∃ after,
    result_of (getUserSessions Tenants.adapter "u1" None)
      (world_after (setSession Tenants.adapter Tenants.n1 None) Tenants.world)
    = Ok after
    ∧ after ≡ₚ [Tenants.n1; Tenants.m1].
Proof.
  destruct (setSession_then_getUserSessions Tenants.adapter "n1" "u1"
              5000 {[ "ip" := VStr "::1" ]} None Tenants.world "u1")
    as (before & after & Hb & Ha & Hperm).
  - repeat constructor.
  - split; [reflexivity|]. by apply map_Forall_singleton.
  - reflexivity.
  - change (Ok [Tenants.m1] = Ok before) in Hb. injection Hb as <-.
    by exists after.
Defined.

(** X7: an accepted [setSession] followed by [deleteSession] of the same id
    (same schema argument) leaves every relation with the rows it had before
    the insert. *)
Theorem setSession_then_deleteSession
    (this : DrizzlePostgreSQLAdapter) (sid : string) (uid : UserId) (t : Date)
    (attrs : object) (schema : option string) (w : World) :
  let s := typed_session sid uid t attrs in
  attrs !! "id" = None →
  result_of (setSession this s schema) w = Ok () →
  ∀ d, relations
         (world_after (deleteSession this sid schema)
            (world_after (setSession this s schema) w)) d
       = relations w d.
Proof.
  intros s Hid Hok d.
  destruct (setSession_accepted this _ _ _ Hok) as [Hacc ->].
  apply violation_None in Hacc as (Hstored & _ & Hfresh).
  assert (Hgiven : prop (session_values s) "id" = VStr sid).
  { unfold prop. rewrite session_values_lookup. subst s.
    cbn [attributes id typed_session]. by rewrite Hid, lookup_insert_eq. }
  rewrite Hgiven in Hfresh, Hstored.
  set (row := table_row _ (session_values s)) in *.
  assert (Hrow : prop row "id" = VStr sid) by exact Hstored.
  unfold world_after. rewrite deleteSession_run. cbn [snd].
  rewrite relations_statement_lookup.
  rewrite !session_relation_after_statement, relations_after_statement.
  case_decide as Hd; [|by rewrite relations_statement_lookup, decide_False].
  subst d. rewrite List.filter_app. simpl List.filter.
  rewrite (proj2 (eq_str "id" sid row) Hrow). simpl.
  rewrite app_nil_r. apply filter_all. intros r Hr.
  apply negb_true_iff, not_true_iff_false. intros Heq.
  apply not_true_iff_false in Hfresh. apply Hfresh, existsb_exists.
  exists r. split; [by apply list_elem_of_In|done].
Qed.

Lemma setSession_then_deleteSession_witness :
  relations
    (world_after (deleteSession Scenario.adapter "s2" None)
       (world_after (setSession Scenario.adapter Scenario.s2 None)
          Scenario.world)) Scenario.sessions_public
  = [Scenario.s1_row].
Proof.
  unfold Scenario.s2.
  rewrite (setSession_then_deleteSession Scenario.adapter "s2" "u1" 7200000
             {[ "ip" := VStr "::1" ]} None Scenario.world);
    reflexivity.
Defined.

(** ** Lookups after a write to another session *)

(** X9: [deleteSession(sessionId)] does not disturb the lookup of another
    session: for every other id, [getSessionAndUser] (same schema argument)
    returns what it returned before.  The session and user tables are two
    different relations. *)
Theorem deleteSession_keeps_other_lookups
    (this : DrizzlePostgreSQLAdapter) (sid sid' : string)
    (schema : option string) (w : World) :
  distinct_tables this w →
  sid' ≠ sid →
  result_of (getSessionAndUser this sid' schema)
    (world_after (deleteSession this sid schema) w)
  = result_of (getSessionAndUser this sid' schema) w.
Proof.
  intros Hd Hne. unfold world_after. rewrite deleteSession_run. cbn [snd].
  rewrite !getSessionAndUser_result, joined_rows_after_statement by done.
  rewrite joined_rows_pushdown, filter_filter_bool.
  replace (List.filter
             (λ r, negb (eq_ "id" (VStr sid) r) && eq_ "id" (VStr sid') r)
             (relations w (session_relation this schema w)))
    with (List.filter (eq_ "id" (VStr sid'))
            (relations w (session_relation this schema w))); [done|].
  apply filter_ext_bool. intros r. symmetry.
  destruct (eq_ "id" (VStr sid') r) eqn:E'.
  - apply eq_str in E'. rewrite andb_true_r. apply not_eq_str.
    rewrite E'. congruence.
  - by rewrite andb_false_r.
Qed.

Lemma deleteSession_keeps_other_lookups_witness :
  result_of (getSessionAndUser Scenario.adapter "s1" None)
    (world_after (deleteSession Scenario.adapter "s9" None) Scenario.world)
  = Ok (Some Scenario.s1,
        Some (transformIntoDatabaseUser Scenario.u1_row)).
Proof.
  rewrite (deleteSession_keeps_other_lookups Scenario.adapter "s9" "s1" None
             Scenario.world); [reflexivity| |discriminate].
  vm_compute. discriminate.
Defined.

(** ** Updating and then reading *)

Section UpdateFacts.

Implicit Types (rows urows : list object) (r u : object) (t : Date).

(** Writing [expiresAt] leaves the conditions on [id] and [userId] alone. *)
Lemma prop_set_expiresAt r t (k : string) :
  k ≠ "expiresAt" → prop (spread r {[ "expiresAt" := VDate t ]}) k = prop r k.
Proof.
  intros Hk. apply prop_spread_base. by apply lookup_singleton_ne.
Qed.

Lemma inner_join_map_session (g : object → object) rows urows
    (on : object → object → bool) :
  (∀ r u, on (g r) u = on r u) →
  inner_join (List.map g rows) urows on
  = List.map (λ j, mkJoined (user j) (g (session j)))
      (inner_join rows urows on).
Proof.
  intros Hon. induction rows as [|r rows IH]; [done|].
  cbn [List.map]. rewrite !inner_join_cons, List.map_app, IH. f_equal.
  rewrite List.map_map. cbn [user session].
  f_equal. apply filter_ext_bool. intros u. apply Hon.
Qed.

Lemma filter_map_commute (g : object → object) (f : object → bool) rows :
  (∀ r, f (g r) = f r) →
  List.filter f (List.map g rows) = List.map g (List.filter f rows).
Proof.
  intros Hf. induction rows as [|r rows IH]; [done|]. simpl.
  rewrite Hf. destruct (f r); simpl; by rewrite IH.
Qed.

End UpdateFacts.

(** X8: after [updateSessionExpiration(sessionId, t)], [getSessionAndUser]
    (same schema argument) returns the session it returned before with
    [expiresAt] replaced by [t], and the same user; where it returned
    [(null, null)] before, it still does.  The session and user tables are
    two different relations. *)
Theorem updateSessionExpiration_then_getSessionAndUser
    (this : DrizzlePostgreSQLAdapter) (sid : string) (t : Date)
    (schema : option string) (w : World) :
  distinct_tables this w →
  result_of (getSessionAndUser this sid schema)
    (world_after (updateSessionExpiration this sid t schema) w)
  = match result_of (getSessionAndUser this sid schema) w with
    | Ok (Some s, Some u) =>
        Ok (Some {| userId := userId s; expiresAt := VDate t; id := id s;
                    attributes := attributes s |}, Some u)
    | other => other
    end.
Proof.
  intros Hd. unfold world_after. rewrite updateSessionExpiration_run.
  cbn [snd]. rewrite !getSessionAndUser_result.
  rewrite joined_rows_after_statement by done.
  set (upd := λ r : object, if eq_ "id" (VStr sid) r
                            then spread r {[ "expiresAt" := VDate t ]} else r).
  assert (Hid : ∀ r, eq_ "id" (VStr sid) (upd r) = eq_ "id" (VStr sid) r).
  { intros r. subst upd. cbv beta. destruct (eq_ "id" (VStr sid) r) eqn:E;
      [|done]. unfold eq_. rewrite prop_set_expiresAt by done. exact E. }
  assert (Hon : ∀ r u, eq_cols "userId" "id" (upd r) u
                       = eq_cols "userId" "id" r u).
  { intros r u. subst upd. cbv beta. destruct (eq_ "id" (VStr sid) r);
      [|done]. unfold eq_cols. by rewrite prop_set_expiresAt. }
  rewrite (filter_map_commute upd) by done.
  rewrite (inner_join_map_session upd) by done.
  rewrite <- joined_rows_pushdown.
  destruct (joined_rows this sid schema w) as [|j [|j' l]] eqn:Hj; [done| |done].
  cbn [List.map user session]. do 3 f_equal.
  assert (Hin : j ∈ joined_rows this sid schema w) by (rewrite Hj; left).
  apply elem_of_joined_rows in Hin as (_ & _ & _ & Hjid).
  subst upd. cbv beta. rewrite (proj2 (eq_str "id" sid (session j)) Hjid).
  apply set_expiresAt_row.
Qed.

Lemma updateSessionExpiration_then_getSessionAndUser_witness :
  result_of (getSessionAndUser Scenario.adapter "s1" None)
    (world_after (updateSessionExpiration Scenario.adapter "s1" 99 None)
       Scenario.world)
  = Ok (Some (typed_session "s1" "u1" 99 ∅),
        Some (transformIntoDatabaseUser Scenario.u1_row)).
Proof.
  rewrite (updateSessionExpiration_then_getSessionAndUser Scenario.adapter
             "s1" 99 None Scenario.world); [reflexivity|].
  vm_compute. discriminate.
Defined.

(** X15: two updates of the same session in a row (same schema argument)
    leave every relation as the second update alone does: the last
    [expiresAt] wins. *)
Theorem updateSessionExpiration_last_wins
    (this : DrizzlePostgreSQLAdapter) (sid : string) (t1 t2 : Date)
    (schema : option string) (w : World) (d : Table) :
  relations
    (world_after (updateSessionExpiration this sid t2 schema)
       (world_after (updateSessionExpiration this sid t1 schema) w)) d
  = relations (world_after (updateSessionExpiration this sid t2 schema) w) d.
Proof.
  unfold world_after. rewrite !updateSessionExpiration_run. cbn [snd].
  rewrite !session_relation_after_statement, relations_after_statement.
  rewrite !relations_statement_lookup, !session_relation_after_statement.
  destruct (decide (d = session_relation this schema w)) as [Hd|Hd]; [|done].
  rewrite List.map_map.
  apply List.map_ext. intros r.
  destruct (eq_ "id" (VStr sid) r) eqn:E; [|by rewrite E].
  assert (E' : eq_ "id" (VStr sid) (spread r {[ "expiresAt" := VDate t1 ]})
               = true).
  { unfold eq_. rewrite prop_set_expiresAt by done. exact E. }
  rewrite E'. apply map_eq. intros k. rewrite !spread_lookup.
  destruct (decide (k = "expiresAt")) as [->|Hk].
  - by rewrite !lookup_singleton_eq.
  - by rewrite !lookup_singleton_ne.
Qed.

(** ** What getSessionAndUser returns *)

(** X10: a session and a user returned together belong together: the
    session has the requested id, the user's id is the session's [userId]
    (and is neither [null] nor [undefined]), and both are transforms of rows
    stored in the session and user relations. *)
Theorem getSessionAndUser_returns_owner
    (this : DrizzlePostgreSQLAdapter) (sid : string) (schema : option string)
    (w : World) (s : DatabaseSession) (u : DatabaseUser) :
  result_of (getSessionAndUser this sid schema) w = Ok (Some s, Some u) →
  id s = VStr sid
  ∧ user_id u = userId s
  ∧ userId s ≠ VNull ∧ userId s ≠ VUndefined
  ∧ ∃ rs ru,
      rs ∈ relations w (session_relation this schema w)
      ∧ ru ∈ relations w (user_relation this schema w)
      ∧ s = transformIntoDatabaseSession rs
      ∧ u = transformIntoDatabaseUser ru.
Proof.
  rewrite getSessionAndUser_result.
  destruct (joined_rows this sid schema w) as [|j [|j' l]] eqn:Hj;
    intros [= <- <-].
  assert (Hin : j ∈ joined_rows this sid schema w) by (rewrite Hj; left).
  apply elem_of_joined_rows in Hin as (Hs & Hu & Hon & Hid).
  cbn [id userId user_id transformIntoDatabaseSession
       transformIntoDatabaseUser].
  split; [done|]. split; [symmetry; by apply sql_eq_true|].
  split; [|split].
  - intros E. by rewrite E in Hon.
  - intros E. by rewrite E in Hon.
  - by exists (session j), (user j).
Qed.

Lemma getSessionAndUser_returns_owner_witness :
  id Scenario.s1 = VStr "s1"
  ∧ user_id (transformIntoDatabaseUser Scenario.u1_row) = userId Scenario.s1.
Proof.
  destruct (getSessionAndUser_returns_owner Scenario.adapter "s1" None
              Scenario.world Scenario.s1
              (transformIntoDatabaseUser Scenario.u1_row))
    as (H1 & H2 & _); [reflexivity|].
  by split.
Defined.

(** X11: [getSessionAndUser] returns [(null, null)] when no session row has
    the id, and also when a session row has it but no user row has the
    session's [userId] as [id]. *)
Theorem getSessionAndUser_absent
    (this : DrizzlePostgreSQLAdapter) (sid : string) (schema : option string)
    (w : World) :
  ((∀ r, r ∈ relations w (session_relation this schema w) →
         prop r "id" ≠ VStr sid)
   ∨ (∀ r u, r ∈ relations w (session_relation this schema w) →
             u ∈ relations w (user_relation this schema w) →
             prop r "id" = VStr sid → prop u "id" ≠ prop r "userId")) →
  result_of (getSessionAndUser this sid schema) w = Ok (None, None).
Proof.
  intros H. rewrite getSessionAndUser_result.
  destruct (joined_rows this sid schema w) as [|j l] eqn:Hj; [done|].
  exfalso.
  assert (Hin : j ∈ joined_rows this sid schema w) by (rewrite Hj; left).
  apply elem_of_joined_rows in Hin as (Hs & Hu & Hon & Hid).
  destruct H as [H|H].
  - by apply (H (session j)).
  - apply (H (session j) (user j)); try done.
    symmetry. by apply sql_eq_true.
Qed.

Lemma getSessionAndUser_absent_witness :
  result_of (getSessionAndUser Scenario.adapter "s9" None) Scenario.world
  = Ok (None, None).
Proof.
  apply getSessionAndUser_absent. left.
  intros r Hr. change (r ∈ [Scenario.s1_row]) in Hr.
  apply list_elem_of_singleton in Hr as ->. vm_compute. discriminate.
Defined.

(** X12: when session ids are unique and user ids are unique, the join has
    at most one row, so the lookup is never ambiguous: a session row with the
    id whose [userId] is the [id] of a user row is returned with that
    user. *)
Theorem getSessionAndUser_unique_ids
    (this : DrizzlePostgreSQLAdapter) (sid : string) (schema : option string)
    (w : World) :
  NoDup ((λ r, prop r "id") <$> relations w (session_relation this schema w)) →
  NoDup ((λ r, prop r "id") <$> relations w (user_relation this schema w)) →
  (length (joined_rows this sid schema w) ≤ 1)%nat
  ∧ ∀ rs ru,
      rs ∈ relations w (session_relation this schema w) →
      ru ∈ relations w (user_relation this schema w) →
      prop rs "id" = VStr sid →
      sql_eq (prop rs "userId") (prop ru "id") = true →
      result_of (getSessionAndUser this sid schema) w
      = Ok (Some (transformIntoDatabaseSession rs),
            Some (transformIntoDatabaseUser ru)).
Proof.
  intros Hs Hu.
  assert (Hlen : (length (joined_rows this sid schema w) ≤ 1)%nat).
  { rewrite joined_rows_pushdown.
    pose proof (filter_key_length (λ r, prop r "id") (eq_ "id" (VStr sid))
                  (relations w (session_relation this schema w))) as H1.
    destruct (List.filter (eq_ "id" (VStr sid)) _) as [|r [|r' l]].
    - simpl. lia.
    - rewrite inner_join_cons. cbn [inner_join flat_map].
      rewrite app_nil_r, length_map.
      apply (filter_key_length (λ u, prop u "id")); [|done].
      intros u u' Hon Hon'. unfold eq_cols in *.
      apply sql_eq_true in Hon, Hon'. congruence.
    - exfalso. cbn [length] in H1.
      cut (S (S (length l)) ≤ 1)%nat; [lia|]. apply H1; [|done].
      intros x y Hx Hy. apply eq_str in Hx, Hy. congruence. }
  split; [done|]. intros rs ru Hrs Hru Hid Hon.
  rewrite getSessionAndUser_result.
  assert (Hin : mkJoined ru rs ∈ joined_rows this sid schema w).
  { apply elem_of_joined_rows. by cbn [session user]. }
  destruct (joined_rows this sid schema w) as [|j [|j' l]].
  - inversion Hin.
  - apply list_elem_of_singleton in Hin as <-. done.
  - cbn [length] in Hlen. lia.
Qed.

Lemma getSessionAndUser_unique_ids_witness :
  result_of (getSessionAndUser Scenario.adapter "s1" None) Scenario.world
  = Ok (Some (transformIntoDatabaseSession Scenario.s1_row),
        Some (transformIntoDatabaseUser Scenario.u1_row)).
Proof.
  destruct (getSessionAndUser_unique_ids Scenario.adapter "s1" None
              Scenario.world) as [_ H].
  - change (NoDup [VStr "s1"]). apply NoDup_singleton.
  - change (NoDup [VStr "u1"]). apply NoDup_singleton.
  - apply H; [left|left|reflexivity|reflexivity].
Defined.

(** ** From a row to a session and back *)

(** X13: the object [setSession] builds from the transform of a row is that
    row again exactly when the row has the three reserved columns; a row that
    lacks one comes back with that column added (holding [undefined]). *)
Theorem session_row_roundtrip (raw : object) :
  session_values (transformIntoDatabaseSession raw) = raw
  ↔ Forall (λ k, is_Some (raw !! k)) session_reserved.
Proof.
  assert (Hlook : ∀ k,
            session_values (transformIntoDatabaseSession raw) !! k
            = if decide (k ∈ session_reserved)
              then Some (prop raw k) else raw !! k).
  { intros k. rewrite session_values_lookup, session_attributes_lookup.
    cbn [id userId expiresAt transformIntoDatabaseSession].
    case_decide as Hk.
    - unfold session_reserved in Hk.
      apply elem_of_cons in Hk as [->|Hk]; [by rewrite lookup_insert_eq|].
      apply elem_of_cons in Hk as [->|Hk];
        [by rewrite lookup_insert_ne, lookup_insert_eq|].
      apply list_elem_of_singleton in Hk as ->.
      by rewrite !lookup_insert_ne, lookup_singleton_eq.
    - destruct (raw !! k); [done|].
      rewrite !lookup_insert_ne, lookup_singleton_ne; [done|..];
        intros <-; apply Hk; unfold session_reserved; set_solver. }
  split.
  - intros Heq. apply List.Forall_forall. intros k Hk%list_elem_of_In.
    rewrite <- Heq, Hlook, decide_True by done. eauto.
  - intros Hall. apply map_eq. intros k. rewrite Hlook.
    case_decide as Hk; [|done].
    rewrite List.Forall_forall in Hall.
    destruct (Hall k) as [v Hv]; [by apply list_elem_of_In|].
    unfold prop. by rewrite Hv.
Qed.

Lemma session_row_roundtrip_witness :
  session_values (transformIntoDatabaseSession Scenario.s1_row)
  = Scenario.s1_row.
Proof.
  apply session_row_roundtrip. unfold Scenario.s1_row.
  repeat constructor; eexists; reflexivity.
Defined.

(** ** Deleting twice *)

(** X14: each of the three deletes is idempotent: running it a second time
    with the same arguments leaves every relation as the first run left
    it. *)
Theorem deletes_are_idempotent
    (this : DrizzlePostgreSQLAdapter) (sid : string) (uid : UserId)
    (now : Date) (schema : option string) (w : World) (d : Table) :
  relations
    (world_after (deleteSession this sid schema)
       (world_after (deleteSession this sid schema) w)) d
  = relations (world_after (deleteSession this sid schema) w) d
  ∧ relations
      (world_after (deleteUserSessions this uid schema)
         (world_after (deleteUserSessions this uid schema) w)) d
    = relations (world_after (deleteUserSessions this uid schema) w) d
  ∧ relations
      (world_after (deleteExpiredSessions this now schema)
         (world_after (deleteExpiredSessions this now schema) w)) d
    = relations (world_after (deleteExpiredSessions this now schema) w) d.
Proof.
  unfold world_after.
  rewrite !deleteSession_run, !deleteUserSessions_run,
    !deleteExpiredSessions_run. cbn [snd].
  rewrite !session_relation_after_statement, !relations_after_statement.
  rewrite !relations_statement_lookup, !session_relation_after_statement.
  rewrite !filter_idemp.
  destruct (decide (d = session_relation this schema w)); done.
Qed.

(** X16: expiry is monotone in time: [deleteExpiredSessions] at [now] and
    then at a later [now'] leaves every relation as a single run at [now']
    does. *)
Theorem deleteExpiredSessions_later_subsumes
    (this : DrizzlePostgreSQLAdapter) (now now' : Date)
    (schema : option string) (w : World) (d : Table) :
  (now ≤ now')%Z →
  relations
    (world_after (deleteExpiredSessions this now' schema)
       (world_after (deleteExpiredSessions this now schema) w)) d
  = relations (world_after (deleteExpiredSessions this now' schema) w) d.
Proof.
  intros Hle. unfold world_after. rewrite !deleteExpiredSessions_run.
  cbn [snd].
  rewrite !session_relation_after_statement, !relations_after_statement.
  rewrite !relations_statement_lookup, !session_relation_after_statement.
  destruct (decide (d = session_relation this schema w)); [|done].
  rewrite filter_filter_bool. apply filter_ext_bool. intros r.
  unfold lte, sql_lte. destruct (prop r "expiresAt"); try done.
  destruct (Z.leb_spec t now), (Z.leb_spec t now'); simpl; try done; lia.
Qed.

Lemma deleteExpiredSessions_later_subsumes_witness :
  relations
    (world_after (deleteExpiredSessions Scenario.adapter 3600000 None)
       (world_after (deleteExpiredSessions Scenario.adapter 10 None)
          Scenario.world)) Scenario.sessions_public
  = [].
Proof.
  rewrite (deleteExpiredSessions_later_subsumes Scenario.adapter 10 3600000
             None Scenario.world); [reflexivity|lia].
Defined.

(** ** Logging a user out *)

(** X18: after [deleteUserSessions(userId)], [getSessionAndUser] (same schema
    argument) returns [(null, null)] for every session id whose rows all
    belong to that user. *)
Theorem deleteUserSessions_then_getSessionAndUser
    (this : DrizzlePostgreSQLAdapter) (uid : UserId) (sid : string)
    (schema : option string) (w : World) :
  (∀ r, r ∈ relations w (session_relation this schema w) →
        prop r "id" = VStr sid → prop r "userId" = VStr uid) →
  result_of (getSessionAndUser this sid schema)
    (world_after (deleteUserSessions this uid schema) w)
  = Ok (None, None).
Proof.
  intros Hown. unfold world_after. rewrite deleteUserSessions_run. cbn [snd].
  rewrite getSessionAndUser_result. unfold joined_rows.
  rewrite session_relation_after_statement, relations_after_statement.
  rewrite filter_session_inner_join, filter_filter_bool.
  rewrite filter_none; [done|]. apply not_true_iff_false.
  intros (r & Hr%list_elem_of_In & Hb)%existsb_exists.
  apply andb_true_iff in Hb as [Hnot Hid].
  apply not_eq_str in Hnot. apply eq_str in Hid. by apply Hnot, Hown.
Qed.

Lemma deleteUserSessions_then_getSessionAndUser_witness :
  result_of (getSessionAndUser Scenario.adapter "s1" None)
    (world_after (deleteUserSessions Scenario.adapter "u1" None)
       Scenario.world)
  = Ok (None, None).
Proof.
  apply deleteUserSessions_then_getSessionAndUser.
  intros r Hr _. change (r ∈ [Scenario.s1_row]) in Hr.
  apply list_elem_of_singleton in Hr as ->. reflexivity.
Defined.

(** ** Writes to one session and lookups of another *)

(** X19: an accepted [setSession] of a session with id [sid], and
    [updateSessionExpiration] for [sid], do not disturb the lookup of another
    session: for every other id, [getSessionAndUser] (same schema argument)
    returns what it returned before.  The session and user tables are two
    different relations. *)
Theorem writes_keep_other_lookups
    (this : DrizzlePostgreSQLAdapter) (sid sid' : string) (uid : UserId)
    (t : Date) (attrs : object) (schema : option string) (w : World) :
  distinct_tables this w →
  sid' ≠ sid →
  (attrs !! "id" = None →
   result_of (setSession this (typed_session sid uid t attrs) schema) w
   = Ok () →
   result_of (getSessionAndUser this sid' schema)
     (world_after (setSession this (typed_session sid uid t attrs) schema) w)
   = result_of (getSessionAndUser this sid' schema) w)
  ∧ result_of (getSessionAndUser this sid' schema)
      (world_after (updateSessionExpiration this sid t schema) w)
    = result_of (getSessionAndUser this sid' schema) w.
Proof.
  intros Hd Hne. split.
  - intros Hid Hok.
    destruct (setSession_accepted this _ _ _ Hok) as [Hacc ->].
    apply violation_None in Hacc as (Hstored & _ & _).
    set (row := table_row _ _) in *.
    rewrite !getSessionAndUser_result, joined_rows_after_statement by done.
    rewrite joined_rows_pushdown, List.filter_app. simpl List.filter.
    replace (eq_ "id" (VStr sid') row) with false; [by rewrite app_nil_r|].
    symmetry. apply not_true_iff_false. intros E. apply eq_str in E.
    rewrite Hstored in E.
    unfold prop in E. rewrite session_values_lookup in E.
    cbn [attributes id typed_session] in E.
    rewrite Hid, lookup_insert_eq in E. simpl in E. congruence.
  - unfold world_after. rewrite updateSessionExpiration_run. cbn [snd].
    rewrite !getSessionAndUser_result, joined_rows_after_statement by done.
    rewrite joined_rows_pushdown.
    set (upd := λ r : object, if eq_ "id" (VStr sid) r
                              then spread r {[ "expiresAt" := VDate t ]}
                              else r).
    assert (Hsame : ∀ rows,
              List.filter (eq_ "id" (VStr sid')) (List.map upd rows)
              = List.filter (eq_ "id" (VStr sid')) rows).
    { induction rows as [|r rows IH]; [done|].
      cbn [List.map List.filter]. rewrite IH. subst upd. cbv beta.
      destruct (eq_ "id" (VStr sid) r) eqn:E; [|done].
      apply eq_str in E.
      assert (E1 : eq_ "id" (VStr sid') r = false).
      { apply not_true_iff_false. intros E'%eq_str. congruence. }
      assert (E2 : eq_ "id" (VStr sid')
                     (spread r {[ "expiresAt" := VDate t ]}) = false).
      { unfold eq_. rewrite prop_set_expiresAt by done. exact E1. }
      by rewrite E1, E2. }
    by rewrite Hsame.
Qed.

Lemma writes_keep_other_lookups_witness :
  result_of (getSessionAndUser Scenario.adapter "s1" None)
    (world_after (updateSessionExpiration Scenario.adapter "s2" 5 None)
       Scenario.world)
  = Ok (Some Scenario.s1, Some (transformIntoDatabaseUser Scenario.u1_row)).
Proof.
  destruct (writes_keep_other_lookups Scenario.adapter "s2" "s1" "u1" 5 ∅ None
              Scenario.world) as [_ H].
  - vm_compute. discriminate.
  - discriminate.
  - rewrite H. reflexivity.
Defined.

(** ** A join across schemas *)

(** X17: [getSessionTable] and [getUserTable] redirect separately.  After a
    call that only uses the session table, made with a non-empty schema [s],
    [getSessionAndUser] without schema argument looks the session up in the
    session relation of schema [s] and its user in the user relation of the
    schema the user table object still holds: it returns the one joined row
    of these two relations, split into session and user, or
    [(null, null)]. *)
Theorem getSessionAndUser_after_session_only_call
    (this : DrizzlePostgreSQLAdapter) (c : Call) (s sid : string)
    (w : World) :
  schema_of c = Some s →
  truthy s = true →
  uses_user_table c = false →
  userTable this ≠ sessionTable this →
  let w1 := world_after (call this c) w in
  let sessions :=
    relations w1 {| tbl_name := tbl_name (tables w (sessionTable this));
                    tbl_schema := Some s |} in
  let users := relations w1 (tables w (userTable this)) in
  result_of (getSessionAndUser this sid None) w1
  = Ok match List.filter (λ j, eq_ "id" (VStr sid) (session j))
               (inner_join sessions users (eq_cols "userId" "id")) with
       | [j] =>
           (Some {| userId := prop (session j) "userId";
                    expiresAt := prop (session j) "expiresAt";
                    id := prop (session j) "id";
                    attributes :=
                      delete "id" (delete "userId"
                        (delete "expiresAt" (session j))) |},
            Some {| user_id := prop (user j) "id";
                    user_attributes := delete "id" (user j) |})
       | _ => (None, None)
       end.
Proof.
  intros Hs Ht Hu Hne w1 sessions users. subst w1 sessions users.
  rewrite getSessionAndUser_result. unfold joined_rows.
  unfold session_relation, user_relation. cbn [target].
  rewrite session_table_after_call, Hs, target_truthy by done.
  replace (tables (world_after (call this c) w) (userTable this))
    with (tables w (userTable this)); [done|].
  rewrite tables_after_call.
  destruct c; try discriminate; cbn [schema_of];
    by rewrite tables_redirected_ne.
Qed.

Lemma getSessionAndUser_after_session_only_call_witness :
  result_of (getSessionAndUser Tenants.adapter "t1" None)
    (world_after (call Tenants.adapter (DeleteSession "zz" (Some "tenant")))
       Tenants.world)
  = Ok (Some Tenants.t1,
        Some {| user_id := VStr "u1";
                user_attributes := {[ "name" := VStr "main" ]} |})
  ∧ result_of (getSessionAndUser Tenants.adapter "t1" (Some "tenant"))
      Tenants.world
    = Ok (Some Tenants.t1,
          Some {| user_id := VStr "u1";
                  user_attributes := {[ "name" := VStr "tenant" ]} |}).
Proof.
  split; [|reflexivity].
  rewrite (getSessionAndUser_after_session_only_call Tenants.adapter
             (DeleteSession "zz" (Some "tenant")) "tenant" "t1"
             Tenants.world); try reflexivity.
  discriminate.
Defined.
